(** * Typed-FSM: a shallow embedding of the engine ([fsm.ts])

    The TypeScript engine is embedded as Rocq functions over an explicit
    world.  Names follow the source.  The source tree holds two revisions
    of the engine; the embedding follows the one whose behavior entries
    are written [{ onEnter, handling }] and whose tests are [fsm.test.ts].
    The other one writes [{ lifecycle, transitions }] and stores what the
    lifecycle function returns as it is, where this one stores
    [newHook || {}]; it is embedded further down, where it differs, and
    compared with this one.

    The world holds what the source keeps in mutable objects:

    - the private fields [_value] and [_hooks] of every [FSMInstance];
    - the [followers] and [cbId] fields of every [InternalObserver];
    - everything written to [console], interleaved with the calls the
      engine makes into user code, in chronological order.

    User code (message handlers, lifecycle hooks) receives [self] and may
    call [self.send.<name>(payload)] or [self.value()] synchronously; it is
    embedded as a small script type [Prog] which the engine interprets.
    Because a hook may send a message whose hook sends a message, and so
    on, the interpreter is indexed by a bound on the nesting depth of
    [send] calls. *)

From stdpp Require Import gmap strings list.

Open Scope string_scope.
Open Scope list_scope.

(** ** JavaScript objects used as records of named properties

    An object whose iteration order matters ([Object.keys], [for .. in],
    [forEach] over the keys) is a list of properties in enumeration
    order, each key occurring once. *)

Section Objects.
Context {K : Type} `{EqDecision K} {A : Type}.

(** [obj[key]]: the value of the property, [None] for [undefined]. *)
Fixpoint obj_get (key : K) (obj : list (K * A)) : option A :=
  match obj with
  | [] => None
  | (k, a) :: rest => if decide (k = key) then Some a else obj_get key rest
  end.

(** [Object.keys(obj)]. *)
Definition obj_keys (obj : list (K * A)) : list K := obj.*1.

(** [obj[key] = a]: an existing property keeps its place, a new one is
    enumerated last. *)
Fixpoint obj_set (key : K) (a : A) (obj : list (K * A)) : list (K * A) :=
  match obj with
  | [] => [(key, a)]
  | (k, b) :: rest =>
      if decide (k = key) then (k, a) :: rest else (k, b) :: obj_set key a rest
  end.

(** [delete obj[key]]. *)
Definition obj_delete (key : K) (obj : list (K * A)) : list (K * A) :=
  filter (λ kb, kb.1 ≠ key) obj.
End Objects.

(** ** Messages (source: [FSMMessage.create], the module variable [messageId]) *)

(** [type MessageId = number].  The only arithmetic on identifiers is
    [messageId++], which is exact on JavaScript numbers below 2^53; the
    counter is a natural number here. *)
Definition MessageId := nat.

(** A message descriptor is a function object carrying [_id]. *)
Record FSMMessage := { _id : MessageId }.

(** What a descriptor returns when it is called on a payload:
    [{ _id, value }]. *)
Record MessageInstance (T : Type) := { instance_id : MessageId; instance_value : T }.
Arguments instance_id {T} _.
Arguments instance_value {T} _.

(** [let messageId = 1] *)
Definition messageId_initial : MessageId := 1.

(** [FSMMessage.create]: [const _id = messageId++] and the descriptor that
    closes over [_id].  The module variable is threaded through. *)
Definition FSMMessage_create (messageId : MessageId) : FSMMessage * MessageId :=
  let _id := messageId in
  ({| _id := _id |}, S messageId).

(** Calling the descriptor: [(value: T) => ({ _id, value })]. *)
Definition FSMMessage_call {T} (message : FSMMessage) (value : T) : MessageInstance T :=
  {| instance_id := _id message; instance_value := value |}.

(** [n] successive calls of [FSMMessage.create], in call order. *)
Fixpoint create_many (n : nat) (messageId : MessageId) : list FSMMessage * MessageId :=
  match n with
  | O => ([], messageId)
  | S n' =>
      let '(m, messageId') := FSMMessage_create messageId in
      let '(ms, messageId'') := create_many n' messageId' in
      (m :: ms, messageId'')
  end.

(** ** The engine *)

(** A subscriber's callback is code of the subscriber; the engine only
    calls it.  It is identified here by a name, and each call is recorded
    in the world's trace. *)
Definition Listener := string.

Section Engine.
Context {STATES PAYLOAD : Type}.

(** *** States (source: [FSMState]) *)

(** [is] is the type guard; the field [T] only carries a type. *)
Record FSMState := { is_ : STATES → bool }.

(** *** User code

    A handler or hook runs with [self] in scope.  [SelfValue] is
    [self.value()], [SelfSend name payload] is
    [self.send.<name>(payload)], [Effect] is any effect of its own that
    an observer of the program can see (the tests use [jest.fn()]
    spies). *)
Inductive Prog (R : Type) : Type :=
| Return (r : R)
| SelfValue (k : STATES → Prog R)
| SelfSend (name : string) (payload : PAYLOAD) (k : Prog R)
| Effect (label : string) (k : Prog R).
Arguments Return {R} r.
Arguments SelfValue {R} k.
Arguments SelfSend {R} name payload k.
Arguments Effect {R} label k.

(** [Hooks<CURRENTSTATE>] *)
Record Hooks := {
  onUpdate : option (STATES → STATES → Prog unit);
  onExit : option (STATES → Prog unit)
}.

(** The empty object literal in [hookSet(newHook || {})]. *)
Definition no_hooks : Hooks := {| onUpdate := None; onExit := None |}.

(** [Lifecycle]: returns [Hooks | void]. *)
Local Abbreviation Lifecycle := (STATES → Prog (option Hooks)).

(** One entry of [MessageHandlers & WildcardHandler]. *)
Local Abbreviation MessageHandler := (STATES → PAYLOAD → Prog STATES).

(** One entry of [BehaviorMap].  The engine compares entries with [===],
    that is by object identity: [addr] is the identity of the object.
    [handling] maps message names, and the wildcard name, to
    handlers. *)
Record Behavior := {
  addr : nat;
  onEnter : option Lifecycle;
  handling : gmap string MessageHandler
}.

(** *** The world *)

(** The private fields of one [FSMInstance]. *)
Record Cell := { _value : STATES; _hooks : option Hooks }.

(** The private fields of one [InternalObserver]. *)
Record InternalObserver := { followers : list (nat * Listener); cbId : nat }.

(** Arguments of the [console] calls of the source. *)
Inductive Logged : Type :=
| NoMatchingState (state : STATES) (message : FSMMessage) (messagePayload : PAYLOAD)
| NoMatchingMessage (message : FSMMessage) (messagePayload : PAYLOAD)
| Text (s : string)
| TransitionContext (messageKey : string) (state : STATES).

(** Calls of lifecycle functions by the engine. *)
Inductive HookCall : Type :=
| CallOnEnter (entry : nat) (entryState : STATES)
| CallOnUpdate (previous current : STATES)
| CallOnExit (state : STATES).

Inductive Event : Type :=
| ConsoleError (l : Logged)
| ConsoleWarn (l : Logged)
| Fired (c : HookCall)
| UserEffect (label : string)
| Delivered (observer callbackId : nat) (callback : Listener) (t : STATES).

Record World := {
  cells : list Cell;
  observers : list InternalObserver;
  trace : list Event
}.

Definition empty_world : World := {| cells := []; observers := []; trace := [] |}.

Definition with_cells (f : list Cell → list Cell) (w : World) : World :=
  {| cells := f (cells w); observers := observers w; trace := trace w |}.
Definition with_observers (f : list InternalObserver → list InternalObserver)
    (w : World) : World :=
  {| cells := cells w; observers := f (observers w); trace := trace w |}.
Definition log (e : Event) (w : World) : World :=
  {| cells := cells w; observers := observers w; trace := trace w ++ [e] |}.

(** *** Results of calls: normal return, a thrown exception, or the
    bound on nested sends reached.  Each comes with the world at that
    point. *)
Inductive Exn : Type :=
| Error (message : string)
| TypeError (message : string).

Inductive Outcome (A : Type) : Type :=
| Done (a : A) (w : World)
| Threw (e : Exn) (w : World)
| OutOfFuel (w : World).
Arguments Done {A} a w.
Arguments Threw {A} e w.
Arguments OutOfFuel {A} w.

Definition M (A : Type) : Type := World → Outcome A.

Definition ret {A} (a : A) : M A := λ w, Done a w.
Definition bind {A B} (m : M A) (f : A → M B) : M B :=
  λ w, match m w with
       | Done a w' => f a w'
       | Threw e w' => Threw e w'
       | OutOfFuel w' => OutOfFuel w'
       end.
Definition throw {A} (e : Exn) : M A := λ w, Threw e w.
Definition emit (e : Event) : M unit := λ w, Done tt (log e w).
Definition modify (f : World → World) : M unit := λ w, Done tt (f w).
Definition gets {A} (f : World → A) : M A := λ w, Done (f w) w.

Notation "'let*' x := m 'in' k" := (bind m (λ x, k))
  (at level 10, x binder, m at level 200, k at level 200, only parsing).

(** *** [self] and the interpretation of user code *)

(** [Self<SM, MM>]: [send] is indexed by message name. *)
Record Self := {
  value : World → STATES;
  send : string → PAYLOAD → M unit
}.

Fixpoint exec {R} (self : Self) (p : Prog R) : M R :=
  match p with
  | Return r => ret r
  | SelfValue k => λ w, exec self (k (value self w)) w
  | SelfSend name payload k => let* _ := send self name payload in exec self k
  | Effect label k => let* _ := emit (UserEffect label) in exec self k
  end.

(** *** Descriptions (source: [class FSMDescription]) *)

Context {INITIAL : Type}.

(** The four constructor parameters. *)
Record FSMDescription := {
  states : list (string * FSMState);
  factory : INITIAL → STATES;
  messages : list (string * FSMMessage);
  behaviors : gmap string Behavior
}.

(** [function noTransition(state, message)] *)
Definition noTransition (state message : string) : string :=
  "No transition encoded for (" +:+ state +:+ ", " +:+ message +:+ "), message ignored".

(** The message of all three [throw new Error(...)] of [sendFactory]. *)
Definition could_not_find : string :=
  "Could not find any matching state definition, message ignored".

(** How a template literal prints a possibly undefined name. *)
Definition print_name (name : option string) : string :=
  default "undefined" name.

Section Description.
Variable d : FSMDescription.

(** [const stateKeys = Object.keys(states)]: the declared names, in the
    order in which the object enumerates them (the order of declaration,
    for names that are not array indices). *)
Definition stateKeys : list string := obj_keys (states d).

(** [reverseMessageMap], filled by the [for .. in] loop over
    [messages]. *)
Definition reverseMessageMap : gmap MessageId string :=
  foldl (λ acc nm, <[_id nm.2 := nm.1]> acc) ∅ (messages d).

(** [states[key].is(state)].  The loop takes [key] from [stateKeys], so
    the property is there. *)
Definition accepts (key : string) (state : STATES) : bool :=
  match obj_get key (states d) with
  | Some s => is_ s state
  | None => false
  end.

(** The loop of [findStateKey], from some index on. *)
Fixpoint findStateKey_from (keys : list string) (state : STATES) : option string :=
  match keys with
  | [] => None
  | key :: keys' =>
      if accepts key state then Some key else findStateKey_from keys' state
  end.

Definition findStateKey (state : STATES) : option string :=
  findStateKey_from stateKeys state.

Definition findStateBehavior (state : STATES) : option Behavior :=
  match findStateKey state with
  | Some stateKey => behaviors d !! stateKey
  | None => None
  end.

(** [dispatch]: the two curried argument lists are the four accessors
    of the instance being built. *)
Section Dispatch.
Variable stateSet : STATES → World → World.
Variable stateGet : World → STATES.
Variable hookSet : option Hooks → World → World.
Variable hookGet : World → option Hooks.

(** [self.send.<name>]: [send[messageKey] = sendFactory(messagePrototype)]
    for the keys of [messages]; calling a missing property is a
    [TypeError]. *)
Definition send_property (sendFactory : FSMMessage → PAYLOAD → M unit)
    (name : string) (payload : PAYLOAD) : M unit :=
  match obj_get name (messages d) with
  | Some messagePrototype => sendFactory messagePrototype payload
  | None => throw (TypeError ("self.send." +:+ name +:+ " is not a function"))
  end.

(** The body of [sendFactory(message)(messagePayload)], with the
    object [self] of the enclosing [dispatch] call in scope. *)
Definition send_body (self : Self) (message : FSMMessage)
    (messagePayload : PAYLOAD) : M unit :=
  let* state := gets stateGet in
  let stateKey := findStateKey state in
  match findStateBehavior state with
  | None =>
      let* _ := emit (ConsoleError (NoMatchingState state message messagePayload)) in
      throw (Error could_not_find)
  | Some stateBehavior =>
  match reverseMessageMap !! _id message with
  | None =>
      let* _ := emit (ConsoleError (NoMatchingMessage message messagePayload)) in
      throw (Error could_not_find)
  | Some messageKey =>
  match handling stateBehavior !! messageKey ∪ handling stateBehavior !! "_" with
  | None =>
      let* _ := emit (ConsoleWarn
                        (Text (noTransition (print_name stateKey) messageKey))) in
      let* _ := emit (ConsoleWarn (TransitionContext messageKey state)) in
      ret tt
  | Some messageTransition =>
  (* Transition : produce a new state *)
  let* newState := exec self (messageTransition state messagePayload) in
  match findStateBehavior newState with
  | None =>
      let* _ := emit (ConsoleError
                        (NoMatchingState newState message messagePayload)) in
      throw (Error could_not_find)
  | Some newStateBehavior =>
  (* Update state with new reference *)
  let* _ := modify (stateSet newState) in
  let* currentHooks := gets hookGet in
  let stillInSameState := bool_decide (addr newStateBehavior = addr stateBehavior) in
  if stillInSameState then
    (* Lifecycle : On update *)
    match currentHooks ≫= onUpdate with
    | Some f =>
        let* _ := emit (Fired (CallOnUpdate state newState)) in
        exec self (f state newState)
    | None => ret tt
    end
  else
    (* Lifecycle : On exit previous state *)
    let* _ :=
      match currentHooks ≫= onExit with
      | Some f =>
          let* _ := emit (Fired (CallOnExit state)) in
          exec self (f state)
      | None => ret tt
      end in
    (* Lifecycle : On enter new state *)
    match onEnter newStateBehavior with
    | Some f =>
        let* _ := emit (Fired (CallOnEnter (addr newStateBehavior) newState)) in
        let* newHook := exec self (f newState) in
        modify (hookSet (Some (default no_hooks newHook)))
    | None =>
        (* No lifecycle for the new state : reset the hooks *)
        modify (hookSet None)
    end
  end end end end.

(** [sendFactory]: the object [self] holds one [sendFactory(...)] per
    message, so a send made by user code runs the same body again.
    [fuel] bounds the depth of such nesting. *)
Fixpoint sendFactory (fuel : nat) (message : FSMMessage)
    (messagePayload : PAYLOAD) {struct fuel} : M unit :=
  match fuel with
  | O => λ w, OutOfFuel w
  | S fuel' =>
      send_body {| value := stateGet; send := send_property (sendFactory fuel') |}
        message messagePayload
  end.

(** The object [self] returned by [dispatch]. *)
Definition dispatch (fuel : nat) : Self :=
  {| value := stateGet; send := send_property (sendFactory fuel) |}.
End Dispatch.
End Description.

(** *** Instances (source: [class FSMInstance]) *)

(** The type of the [dispatch] parameter of the constructor. *)
Definition Dispatch : Type :=
  (STATES → World → World) → (World → STATES) →
  (option Hooks → World → World) → (World → option Hooks) →
  nat → Self.

(** Accessors of the private fields of the instance at [this].  An
    instance is created once and never freed, so the cell is there
    whenever an accessor runs. *)
Definition this_value (this : nat) (initialValue : STATES) (w : World) : STATES :=
  from_option _value initialValue (cells w !! this).
Definition this_hooks (this : nat) (w : World) : option Hooks :=
  cells w !! this ≫= _hooks.
Definition set_this_value (this : nat) (newState : STATES) : World → World :=
  with_cells (alter (λ c, {| _value := newState; _hooks := _hooks c |}) this).
Definition set_this_hooks (this : nat) (hooks : option Hooks) : World → World :=
  with_cells (alter (λ c, {| _value := _value c; _hooks := hooks |}) this).

(** What the caller holds: the object's identity [this], and its public
    members [value] and [send]. *)
Record FSMInstance := {
  this_ : nat;
  instance_self : nat → Self
}.

(** [new FSMInstance(initialValue, dispatch, findStateBehavior)].
    [fuel] bounds the sends nested in the initial [onEnter]. *)
Definition FSMInstance_new (initialValue : STATES) (dispatch : Dispatch)
    (findStateBehavior : STATES → option Behavior) (fuel : nat) : M FSMInstance :=
  λ w,
    let this := length (cells w) in
    (* this._value = initialValue *)
    let w := with_cells (λ cs, cs ++ [{| _value := initialValue; _hooks := None |}]) w in
    let value := this_value this initialValue in
    let dispatcher :=
      dispatch (set_this_value this) value (set_this_hooks this) (this_hooks this) in
    let instance := {| this_ := this; instance_self := dispatcher |} in
    (* Lifecycle for the initial state state *)
    match findStateBehavior (value w) with
    | Some initialBehavior =>
        match onEnter initialBehavior with
        | Some f =>
            (let* _ := emit (Fired (CallOnEnter (addr initialBehavior) (value w))) in
             (* call onEnter() *)
             let* hooks := exec (dispatcher fuel) (f (value w)) in
             (* Update hooks *)
             let* _ := modify (set_this_hooks this hooks) in
             ret instance) w
        | None => Done instance w
        end
    | None => Done instance w
    end.

(** [FSMDescription.create] *)
Definition create (d : FSMDescription) (initial : INITIAL) (fuel : nat) : M FSMInstance :=
  let initialValue := factory d initial in
  FSMInstance_new initialValue (dispatch d) (findStateBehavior d) fuel.

(** The caller's statements [instance.send.<name>(payload); ...], one
    after the other. *)
Fixpoint send_each (self : Self) (sent : list (string * PAYLOAD)) : M unit :=
  match sent with
  | [] => ret tt
  | (name, payload) :: rest =>
      let* _ := send self name payload in send_each self rest
  end.

(** [const instance = description.create(initial)], then the sends of
    [sent]. *)
Definition create_send (d : FSMDescription) (initial : INITIAL)
    (sent : list (string * PAYLOAD)) (fuel : nat) : M FSMInstance :=
  let* instance := create d initial fuel in
  let* _ := send_each (instance_self instance fuel) sent in
  ret instance.

(** The same, then [instance.value()]. *)
Definition create_send_value (d : FSMDescription) (initial : INITIAL)
    (sent : list (string * PAYLOAD)) (fuel : nat) : M STATES :=
  let* instance := create_send d initial sent fuel in
  gets (value (instance_self instance fuel)).

(** *** The staged builder *)

Record FSMWithStates := { states_1 : list (string * FSMState) }.
Record FSMWithStatesInitialized := {
  states_2 : list (string * FSMState);
  factory_2 : INITIAL → STATES
}.
Record FSMMessagesInitialized := {
  states_3 : list (string * FSMState);
  factory_3 : INITIAL → STATES;
  messages_3 : list (string * FSMMessage)
}.

(** [FSM<STATES>().states(states)] *)
Definition FSM_states (states : list (string * FSMState)) : FSMWithStates :=
  {| states_1 := states |}.

Definition withInitialState (b : FSMWithStates) (factory : INITIAL → STATES)
    : FSMWithStatesInitialized :=
  {| states_2 := states_1 b; factory_2 := factory |}.

Definition with_messages (b : FSMWithStatesInitialized)
    (messages : list (string * FSMMessage)) : FSMMessagesInitialized :=
  {| states_3 := states_2 b; factory_3 := factory_2 b; messages_3 := messages |}.

(** [behaviors(behaviors)]: [return new FSMDescription(...)].  The
    parameter type [BehaviorMap<SM, MM>] asks for one entry per key of
    [SM]; that is checked by the TypeScript compiler and erased. *)
Definition with_behaviors (b : FSMMessagesInitialized)
    (behaviors : gmap string Behavior) : FSMDescription :=
  {| states := states_3 b; factory := factory_3 b;
     messages := messages_3 b; behaviors := behaviors |}.

(** Every declared state name has an entry. *)
Definition covers (states : list (string * FSMState))
    (behaviors : gmap string Behavior) : bool :=
  forallb (λ key, bool_decide (is_Some (behaviors !! key))) (obj_keys states).

(** *** The observable adapter (source: [class InternalObserver],
    [class FSMDescriptionWithObservable]) *)

(** What [onValue] returns: an object whose [unsubscribe] closes over the
    observer and [callbackId]. *)
Record Subscription := { of_observer : nat; callbackId_ : nat }.

(** [new InternalObserver()] *)
Definition InternalObserver_new : InternalObserver :=
  {| followers := []; cbId := 0 |}.

(** [observer.onValue(callback)] *)
Definition onValue (observer : nat) (callback : Listener) (w : World)
    : Subscription * World :=
  let callbackId := from_option cbId 0 (observers w !! observer) in
  ({| of_observer := observer; callbackId_ := callbackId |},
   with_observers
     (alter (λ o, {| followers := obj_set callbackId callback (followers o);
                     cbId := S (cbId o) |}) observer) w).

(** [subscription.unsubscribe()] *)
Definition unsubscribe (s : Subscription) : World → World :=
  with_observers
    (alter (λ o, {| followers := obj_delete (callbackId_ s) (followers o);
                    cbId := cbId o |}) (of_observer s)).

(** [observer.next(t)]: every follower is called with [t]. *)
Definition next (observer : nat) (t : STATES) (w : World) : World :=
  foldl (λ w f, log (Delivered observer f.1 f.2 t) w) w
    (from_option followers [] (observers w !! observer)).

(** The code of an [ObservableHook]: it may subscribe callbacks, drop
    subscriptions, and returns the handle of type [R]. *)
Inductive ObsProg (R : Type) : Type :=
| ObsReturn (r : R)
| ObsOnValue (observer : nat) (callback : Listener) (k : Subscription → ObsProg R)
| ObsUnsubscribe (s : Subscription) (k : ObsProg R).
Arguments ObsReturn {R} r.
Arguments ObsOnValue {R} observer callback k.
Arguments ObsUnsubscribe {R} s k.

Fixpoint run_hook {R} (p : ObsProg R) (w : World) : R * World :=
  match p with
  | ObsReturn r => (r, w)
  | ObsOnValue observer callback k =>
      let '(s, w') := onValue observer callback w in run_hook (k s) w'
  | ObsUnsubscribe s k => run_hook k (unsubscribe s w)
  end.

Context {OBSERVABLE : Type}.

(** The hook receives the observer. *)
Definition ObservableHook : Type := nat → ObsProg OBSERVABLE.

Record FSMDescriptionWithObservable := {
  description : FSMDescription;
  observableHook : ObservableHook
}.

(** [FSMDescription.observable(hook)] *)
Definition observable (d : FSMDescription) (hook : ObservableHook)
    : FSMDescriptionWithObservable :=
  {| description := d; observableHook := hook |}.

(** [class ObservableFSMInstance extends FSMInstance] *)
Record ObservableFSMInstance := {
  instance : FSMInstance;
  observer_ : nat;
  asObservable : OBSERVABLE
}.

(** [FSMDescriptionWithObservable.create] *)
Definition create_observable (od : FSMDescriptionWithObservable)
    (initial : INITIAL) (fuel : nat) : M ObservableFSMInstance :=
  λ w,
    let d := description od in
    (* new InternalObserver() *)
    let observer := length (observers w) in
    let w := with_observers (λ os, os ++ [InternalObserver_new]) w in
    let '(hookResult, w) := run_hook (observableHook od observer) w in
    (* Push the initial value manually `AFTER` the observableHook is created *)
    let initialValue := factory d initial in
    let w := next observer initialValue w in
    let dispatch' : Dispatch := λ stateSet stateGet,
      let newStateSet := λ state w, next observer state (stateSet state w) in
      dispatch d newStateSet stateGet in
    (let* i := FSMInstance_new initialValue dispatch' (findStateBehavior d) fuel in
     ret {| instance := i; observer_ := observer; asObservable := hookResult |}) w.
End Engine.

Arguments FSMState : clear implicits.
Arguments Prog : clear implicits.
Arguments Return {STATES PAYLOAD R} r.
Arguments SelfValue {STATES PAYLOAD R} k.
Arguments SelfSend {STATES PAYLOAD R} name payload k.
Arguments Effect {STATES PAYLOAD R} label k.
Arguments Hooks : clear implicits.
Arguments Behavior : clear implicits.
Arguments Cell : clear implicits.
Arguments Logged : clear implicits.
Arguments HookCall : clear implicits.
Arguments Event : clear implicits.
Arguments World : clear implicits.
Arguments Outcome : clear implicits.
Arguments Done {STATES PAYLOAD A} a w.
Arguments Threw {STATES PAYLOAD A} e w.
Arguments OutOfFuel {STATES PAYLOAD A} w.
Arguments M : clear implicits.
Arguments Self : clear implicits.
Arguments FSMDescription : clear implicits.
Arguments Dispatch : clear implicits.
Arguments FSMInstance : clear implicits.
Arguments FSMWithStates : clear implicits.
Arguments FSMWithStatesInitialized : clear implicits.
Arguments FSMMessagesInitialized : clear implicits.
Arguments ObsProg : clear implicits.
Arguments ObsReturn {R} r.
Arguments ObsOnValue {R} observer callback k.
Arguments ObsUnsubscribe {R} s k.
Arguments ObservableHook : clear implicits.
Arguments FSMDescriptionWithObservable : clear implicits.
Arguments ObservableFSMInstance : clear implicits.

Abbreviation Lifecycle STATES PAYLOAD :=
  (STATES → Prog STATES PAYLOAD (option (Hooks STATES PAYLOAD))).
Abbreviation MessageHandler STATES PAYLOAD :=
  (STATES → PAYLOAD → Prog STATES PAYLOAD STATES).

(** ** Vocabulary of the properties *)

Section Vocabulary.
Context {STATES PAYLOAD : Type}.

(** The world in which a call ended, or was cut short by the bound on
    nesting. *)
Definition world_of {A} (o : Outcome STATES PAYLOAD A) : World STATES PAYLOAD :=
  match o with
  | Done _ w | Threw _ w | OutOfFuel w => w
  end.

(** The call ended within the bound on nesting. *)
Definition within_bound {A} (o : Outcome STATES PAYLOAD A) : bool :=
  match o with
  | OutOfFuel _ => false
  | _ => true
  end.

(** The call returned normally. *)
Definition returned {A} (o : Outcome STATES PAYLOAD A) : bool :=
  match o with
  | Done _ _ => true
  | _ => false
  end.

(** The event is a call of a lifecycle function, or an effect of user
    code. *)
Definition is_user_code (e : Event STATES PAYLOAD) : bool :=
  match e with
  | Fired _ | UserEffect _ => true
  | _ => false
  end.

(** The event is a diagnostic naming the state and the message. *)
Definition names_state_and_message (stateName messageName : string)
    (e : Event STATES PAYLOAD) : bool :=
  match e with
  | ConsoleWarn (Text s) | ConsoleError (Text s) =>
      bool_decide (s = noTransition stateName messageName)
  | _ => false
  end.

(** The event is a delivery to a follower of an observer other than
    [observer]. *)
Definition delivered_elsewhere (observer : nat) (e : Event STATES PAYLOAD) : bool :=
  match e with
  | Delivered o _ _ _ => bool_decide (o ≠ observer)
  | _ => false
  end.

(** Between [w] and [w'] no observer changed, and nothing was delivered
    to a follower of an observer other than [observer]. *)
Definition quiet_elsewhere (observer : nat) : relation (World STATES PAYLOAD) :=
  λ w w',
    observers w' = observers w ∧
    ∃ emitted,
      trace w' = trace w ++ emitted ∧
      Forall (λ e, delivered_elsewhere observer e = false) emitted.

(** The world in which the call ends, or is cut short, is related to the
    one in which it started. *)
Definition respects (R : relation (World STATES PAYLOAD)) {A}
    (m : M STATES PAYLOAD A) : Prop :=
  ∀ w, R w (world_of (m w)).

(** Wherever [m1] ends within its bound on nesting, [m2] ends the same
    way. *)
Definition ends_as {A} (m1 m2 : M STATES PAYLOAD A) : Prop :=
  ∀ w, within_bound (m1 w) → m2 w = m1 w.

(** The script sends no message. *)
Inductive sends_nothing {R} : Prog STATES PAYLOAD R → Prop :=
| sends_nothing_Return r : sends_nothing (Return r)
| sends_nothing_SelfValue k :
    (∀ state, sends_nothing (k state)) → sends_nothing (SelfValue k)
| sends_nothing_Effect label k :
    sends_nothing k → sends_nothing (Effect label k).
End Vocabulary.

(** ** Residency, in the words of the specification

    The definitions of this section are not taken from the source.  They
    say which lifecycle calls a sequence of commits is due, so that the
    calls the engine makes can be compared with them. *)

Section Residency.
Context {STATES PAYLOAD INITIAL : Type}.

(** What a script that sends nothing returns when [self.value()] is
    [current]. *)
Fixpoint result_of {R} (p : Prog STATES PAYLOAD R) (current : STATES) : R :=
  match p with
  | Return r => r
  | SelfValue k => result_of (k current) current
  | SelfSend _ _ k => result_of k current
  | Effect _ k => result_of k current
  end.

(** No function of the hook set sends a message. *)
Definition quiet_hooks (hooks : Hooks STATES PAYLOAD) : Prop :=
  (∀ f previous current, onUpdate hooks = Some f → sends_nothing (f previous current)) ∧
  (∀ f state, onExit hooks = Some f → sends_nothing (f state)).

(** No handler of the entry sends a message, nor does its [onEnter], nor
    the hooks that [onEnter] returns. *)
Definition quiet_behavior (entry : Behavior STATES PAYLOAD) : Prop :=
  (∀ name handler state payload,
     handling entry !! name = Some handler → sends_nothing (handler state payload)) ∧
  (∀ f state,
     onEnter entry = Some f →
     sends_nothing (f state) ∧
     ∀ current hooks, result_of (f state) current = Some hooks → quiet_hooks hooks).

Definition quiet_description (d : FSMDescription STATES PAYLOAD INITIAL) : Prop :=
  ∀ key entry, behaviors d !! key = Some entry → quiet_behavior entry.

(** The calls of lifecycle functions recorded in a trace, in order. *)
Definition fired_calls (events : list (Event STATES PAYLOAD)) : list (HookCall STATES) :=
  omap (λ e, match e with Fired c => Some c | _ => None end) events.

(** The call [c], when the function to call is there. *)
Definition call_if {A} (function : option A) (c : HookCall STATES) : list (HookCall STATES) :=
  match function with
  | Some _ => [c]
  | None => []
  end.

(** The calls due when [current] is committed in the entry [entry], after
    [previous] in the entry [resident], whose residency has the hooks
    [hooks].  The same entry: [onUpdate].  Another entry: the residency
    ends, [onExit], and a new one begins, [onEnter]. *)
Definition commit_calls (resident entry : Behavior STATES PAYLOAD)
    (hooks : option (Hooks STATES PAYLOAD)) (previous current : STATES)
    : list (HookCall STATES) :=
  if bool_decide (addr entry = addr resident) then
    call_if (hooks ≫= onUpdate) (CallOnUpdate previous current)
  else
    call_if (hooks ≫= onExit) (CallOnExit previous) ++
    call_if (onEnter entry) (CallOnEnter (addr entry) current).

(** The hooks of the residency after that commit: those of the continued
    residency, or those that the [onEnter] of the new one returns. *)
Definition hooks_after (resident entry : Behavior STATES PAYLOAD)
    (hooks : option (Hooks STATES PAYLOAD)) (current : STATES)
    : option (Hooks STATES PAYLOAD) :=
  if bool_decide (addr entry = addr resident) then hooks
  else
    match onEnter entry with
    | Some f => Some (default no_hooks (result_of (f current) current))
    | None => None
    end.

(** The calls due for a sequence of commits, each with the entry it
    resolves to. *)
Fixpoint residency_calls (resident : Behavior STATES PAYLOAD)
    (hooks : option (Hooks STATES PAYLOAD)) (previous : STATES)
    (commits : list (Behavior STATES PAYLOAD * STATES)) : list (HookCall STATES) :=
  match commits with
  | [] => []
  | (entry, current) :: rest =>
      commit_calls resident entry hooks previous current ++
      residency_calls entry (hooks_after resident entry hooks current) current rest
  end.

(** The calls due from the construction on: the residency of the initial
    value begins, then the commits follow. *)
Definition residency_from_construction (entry : Behavior STATES PAYLOAD)
    (initialValue : STATES) (commits : list (Behavior STATES PAYLOAD * STATES))
    : list (HookCall STATES) :=
  call_if (onEnter entry) (CallOnEnter (addr entry) initialValue) ++
  residency_calls entry (onEnter entry ≫= λ f, result_of (f initialValue) initialValue)
    initialValue commits.

(** What one send does to the value, when handlers send nothing: [None]
    when it throws, [Some None] when the message is not handled,
    [Some (Some (entry, newValue))] when it commits [newValue], which
    resolves to [entry]. *)
Definition spec_transition (d : FSMDescription STATES PAYLOAD INITIAL)
    (state : STATES) (name : string) (payload : PAYLOAD)
    : option (option (Behavior STATES PAYLOAD * STATES)) :=
  message ← obj_get name (messages d);
  resident ← findStateBehavior d state;
  messageKey ← reverseMessageMap d !! _id message;
  match handling resident !! messageKey ∪ handling resident !! "_" with
  | None => Some None
  | Some handler =>
      let newValue := result_of (handler state payload) state in
      entry ← findStateBehavior d newValue;
      Some (Some (entry, newValue))
  end.

(** The commits of a sequence of sends. *)
Fixpoint spec_commits (d : FSMDescription STATES PAYLOAD INITIAL)
    (state : STATES) (sent : list (string * PAYLOAD))
    : option (list (Behavior STATES PAYLOAD * STATES)) :=
  match sent with
  | [] => Some []
  | (name, payload) :: rest =>
      match spec_transition d state name payload with
      | None => None
      | Some None => spec_commits d state rest
      | Some (Some (entry, newValue)) =>
          ((entry, newValue) ::.) <$> spec_commits d newValue rest
      end
  end.

(** The value after the commits. *)
Definition last_value (state : STATES)
    (commits : list (Behavior STATES PAYLOAD * STATES)) : STATES :=
  from_option snd state (last commits).
End Residency.

(** ** Vocabulary of the further properties *)

Section Invariants.
Context {STATES PAYLOAD INITIAL : Type}.

(** Between [w] and [w'] the trace grew by events that satisfy [P], and
    lost none. *)
Definition logged_only (P : Event STATES PAYLOAD → Prop)
    : relation (World STATES PAYLOAD) :=
  λ w w', ∃ emitted, trace w' = trace w ++ emitted ∧ Forall P emitted.

(** The event is the error line of the branch 'No matching message'. *)
Definition is_no_matching_message (e : Event STATES PAYLOAD) : bool :=
  match e with
  | ConsoleError (NoMatchingMessage _ _) => true
  | _ => false
  end.

(** The event is an effect of user code. *)
Definition is_effect (e : Event STATES PAYLOAD) : bool :=
  match e with
  | UserEffect _ => true
  | _ => false
  end.

(** Between [w] and [w'] no instance was created, no field of an
    instance other than the one at [this] changed, and no observer
    changed. *)
Definition own_cell_only (this : nat) : relation (World STATES PAYLOAD) :=
  λ w w',
    length (cells w') = length (cells w) ∧
    (∀ i, i ≠ this → cells w' !! i = cells w !! i) ∧
    observers w' = observers w.

(** The value of the instance at [this] resolves to an entry in [w'] if
    it did in [w]. *)
Definition stays_declared (d : FSMDescription STATES PAYLOAD INITIAL)
    (this : nat) (initialValue : STATES) : relation (World STATES PAYLOAD) :=
  λ w w',
    is_Some (findStateBehavior d (this_value this initialValue w)) →
    is_Some (findStateBehavior d (this_value this initialValue w')).

(** What a send throws: the error of [sendFactory], thrown right after
    the error line 'No matching state' was written, or the [TypeError] of
    a call of [send.<name>] for a name that [messages] does not have. *)
Definition engine_error (d : FSMDescription STATES PAYLOAD INITIAL)
    (x : Exn) (w' : World STATES PAYLOAD) : Prop :=
  (x = Error could_not_find ∧
   ∃ state message payload,
     last (trace w') = Some (ConsoleError (NoMatchingState state message payload))) ∨
  (∃ name,
     x = TypeError ("self.send." +:+ name +:+ " is not a function") ∧
     obj_get name (messages d) = None).

Definition throws_engine_errors (d : FSMDescription STATES PAYLOAD INITIAL)
    {A} (m : M STATES PAYLOAD A) : Prop :=
  ∀ w x w', m w = Threw x w' → engine_error d x w'.
End Invariants.

(** *** Observers *)

(** The identifiers in [keys] grow along the list, from [low] on, and
    stay below [bound]. *)
Fixpoint ascending (low : nat) (keys : list nat) (bound : nat) : Prop :=
  match keys with
  | [] => (low ≤ bound)%nat
  | key :: keys' => (low ≤ key)%nat ∧ ascending (S key) keys' bound
  end.

(** The followers of an observer are enumerated by growing identifier,
    and [cbId] is above them all.  An object enumerates keys that are
    array indices by growing value, whatever the order in which they were
    set; for such an observer that is the order of the list. *)
Definition ids_in_order (o : InternalObserver) : Prop :=
  ascending 0 (obj_keys (followers o)) (cbId o).

Section Deliveries.
Context {STATES PAYLOAD : Type}.

(** The event is a call of the follower [callbackId] of [observer]. *)
Definition delivered_to (observer callbackId : nat) (e : Event STATES PAYLOAD) : bool :=
  match e with
  | Delivered o c _ _ => bool_decide (o = observer ∧ c = callbackId)
  | _ => false
  end.

(** The calls that [next(t)] makes on [observer] in [w]. *)
Definition deliveries (observer : nat) (t : STATES) (w : World STATES PAYLOAD)
    : list (Event STATES PAYLOAD) :=
  (λ f, Delivered observer f.1 f.2 t) <$>
    from_option followers [] (observers w !! observer).
End Deliveries.

(** ** The earlier revision of the engine (source: [src/fsm.ts])

    It differs from the one above in four places that matter when it
    runs.  A behavior entry is written [{ lifecycle, transitions }]; the
    record [Behavior] is used for it, [onEnter] for [lifecycle] and
    [handling] for [transitions].
    The object [self] is a [Dispatcher], which has [send] and no [value];
    a lifecycle function receives [stateGet] as a third argument
    instead.  The hooks stored after a lifecycle function has run are
    what it returned, [hookSet(newHook)].  The text of the warning for a
    message that is not handled comes from [FSMCommon.noTransition] of
    the module [src/fsm.common], which the source tree does not hold: it
    is a parameter here.  Two more differences have no effect on a run:
    [FSMState<PARENT>().create(is)] makes the record that [FSMState(is)]
    makes, and [FSMMessage.create(_name)] also stores [_name], which the
    engine never reads. *)

Section Legacy.
Context {STATES PAYLOAD INITIAL : Type}.
Variable noTransition_common : string → string → string.

Notation "'let*' x := m 'in' k" := (bind m (λ x, k))
  (at level 10, x binder, m at level 200, k at level 200, only parsing).

(** A transition function run with a [Dispatcher] for [self]:
    [self.value] is [undefined], and calling it is a [TypeError]. *)
Fixpoint exec_dispatcher {R} (self : Self STATES PAYLOAD) (p : Prog STATES PAYLOAD R)
    : M STATES PAYLOAD R :=
  match p with
  | Return r => ret r
  | SelfValue k => throw (TypeError "self.value is not a function")
  | SelfSend name payload k =>
      let* _ := send self name payload in exec_dispatcher self k
  | Effect label k => let* _ := emit (UserEffect label) in exec_dispatcher self k
  end.

Section LegacyDispatch.
Variable d : FSMDescription STATES PAYLOAD INITIAL.
Variable stateSet : STATES → World STATES PAYLOAD → World STATES PAYLOAD.
Variable stateGet : World STATES PAYLOAD → STATES.
Variable hookSet : option (Hooks STATES PAYLOAD) → World STATES PAYLOAD → World STATES PAYLOAD.
Variable hookGet : World STATES PAYLOAD → option (Hooks STATES PAYLOAD).

(** The body of [sendFactory(message)(messagePayload)] in [src/fsm.ts].
    A lifecycle function and the hooks it returns read the state through
    [stateGet], which [SelfValue] stands for in their scripts. *)
Definition send_body_legacy (self : Self STATES PAYLOAD) (message : FSMMessage)
    (messagePayload : PAYLOAD) : M STATES PAYLOAD unit :=
  let* state := gets stateGet in
  let stateKey := findStateKey d state in
  match findStateBehavior d state with
  | None =>
      let* _ := emit (ConsoleError (NoMatchingState state message messagePayload)) in
      throw (Error could_not_find)
  | Some stateBehavior =>
  match reverseMessageMap d !! _id message with
  | None =>
      let* _ := emit (ConsoleError (NoMatchingMessage message messagePayload)) in
      throw (Error could_not_find)
  | Some messageKey =>
  match handling stateBehavior !! messageKey ∪ handling stateBehavior !! "_" with
  | None =>
      let* _ := emit (ConsoleWarn
                        (Text (noTransition_common (print_name stateKey) messageKey))) in
      let* _ := emit (ConsoleWarn (TransitionContext messageKey state)) in
      ret tt
  | Some messageTransition =>
  (* Transition : produce a new state *)
  let* newState := exec_dispatcher self (messageTransition state messagePayload) in
  match findStateBehavior d newState with
  | None =>
      let* _ := emit (ConsoleError
                        (NoMatchingState newState message messagePayload)) in
      throw (Error could_not_find)
  | Some newStateBehavior =>
  (* Update state with new reference *)
  let* _ := modify (stateSet newState) in
  let* currentHooks := gets hookGet in
  let stillInSameState := bool_decide (addr newStateBehavior = addr stateBehavior) in
  if stillInSameState then
    (* Lifecycle : On update *)
    match currentHooks ≫= onUpdate with
    | Some f =>
        let* _ := emit (Fired (CallOnUpdate state newState)) in
        exec self (f state newState)
    | None => ret tt
    end
  else
    (* Lifecycle : On exit previous state *)
    let* _ :=
      match currentHooks ≫= onExit with
      | Some f =>
          let* _ := emit (Fired (CallOnExit state)) in
          exec self (f state)
      | None => ret tt
      end in
    (* Lifecycle : On enter new state *)
    match onEnter newStateBehavior with
    | Some f =>
        let* _ := emit (Fired (CallOnEnter (addr newStateBehavior) newState)) in
        let* newHook := exec self (f newState) in
        modify (hookSet newHook)
    | None =>
        (* No lifecycle for the new state : reset the hooks *)
        modify (hookSet None)
    end
  end end end end.

Fixpoint sendFactory_legacy (fuel : nat) (message : FSMMessage)
    (messagePayload : PAYLOAD) {struct fuel} : M STATES PAYLOAD unit :=
  match fuel with
  | O => λ w, OutOfFuel w
  | S fuel' =>
      send_body_legacy
        {| value := stateGet; send := send_property d (sendFactory_legacy fuel') |}
        message messagePayload
  end.

Definition dispatch_legacy (fuel : nat) : Self STATES PAYLOAD :=
  {| value := stateGet; send := send_property d (sendFactory_legacy fuel) |}.
End LegacyDispatch.

(** [FSMDescription.create] of [src/fsm.ts]; the constructor of
    [FSMInstance] is the same, names apart. *)
Definition create_legacy (d : FSMDescription STATES PAYLOAD INITIAL)
    (initial : INITIAL) (fuel : nat) : M STATES PAYLOAD (FSMInstance STATES PAYLOAD) :=
  let initialValue := factory d initial in
  FSMInstance_new initialValue (dispatch_legacy d) (findStateBehavior d) fuel.

(** [create], then the sends of [sent]; and then [instance.value()]. *)
Definition create_send_legacy (d : FSMDescription STATES PAYLOAD INITIAL)
    (initial : INITIAL) (sent : list (string * PAYLOAD)) (fuel : nat)
    : M STATES PAYLOAD (FSMInstance STATES PAYLOAD) :=
  let* instance := create_legacy d initial fuel in
  let* _ := send_each (instance_self instance fuel) sent in
  ret instance.

Definition create_send_value_legacy (d : FSMDescription STATES PAYLOAD INITIAL)
    (initial : INITIAL) (sent : list (string * PAYLOAD)) (fuel : nat)
    : M STATES PAYLOAD STATES :=
  let* instance := create_send_legacy d initial sent fuel in
  gets (value (instance_self instance fuel)).
End Legacy.

Section Similarity.
Context {STATES PAYLOAD INITIAL : Type}.

(** The two hook sets have the same functions to call: a hook set that
    is [undefined] and one that is [{}] have none. *)
Definition same_calls (hooks1 hooks2 : option (Hooks STATES PAYLOAD)) : Prop :=
  hooks1 ≫= onUpdate = hooks2 ≫= onUpdate ∧ hooks1 ≫= onExit = hooks2 ≫= onExit.

Definition similar_cell (c1 c2 : Cell STATES PAYLOAD) : Prop :=
  _value c1 = _value c2 ∧ same_calls (_hooks c1) (_hooks c2).

(** The two worlds have the same instances with the same values and the
    same functions to call, the same observers and the same trace. *)
Definition similar (w1 w2 : World STATES PAYLOAD) : Prop :=
  Forall2 similar_cell (cells w1) (cells w2) ∧
  observers w1 = observers w2 ∧
  trace w1 = trace w2.

(** The two calls ended the same way, with results related by [R], in
    similar worlds. *)
Definition similar_outcome {A B} (R : A → B → Prop)
    (o1 : Outcome STATES PAYLOAD A) (o2 : Outcome STATES PAYLOAD B) : Prop :=
  match o1, o2 with
  | Done a w1, Done b w2 => R a b ∧ similar w1 w2
  | Threw x1 w1, Threw x2 w2 => x1 = x2 ∧ similar w1 w2
  | OutOfFuel w1, OutOfFuel w2 => similar w1 w2
  | _, _ => False
  end.

(** The script does not call [self.value()]. *)
Inductive reads_no_value {R} : Prog STATES PAYLOAD R → Prop :=
| reads_no_value_Return r : reads_no_value (Return r)
| reads_no_value_SelfSend name payload k :
    reads_no_value k → reads_no_value (SelfSend name payload k)
| reads_no_value_Effect label k :
    reads_no_value k → reads_no_value (Effect label k).

(** No transition function of the description calls [self.value()]. *)
Definition transitions_read_no_value (d : FSMDescription STATES PAYLOAD INITIAL) : Prop :=
  ∀ key entry name handler state payload,
    behaviors d !! key = Some entry →
    handling entry !! name = Some handler →
    reads_no_value (handler state payload).
End Similarity.

Section Agreement.
Context {STATES PAYLOAD : Type}.

(** Run in similar worlds, the two calls end the same way, with results
    related by [R], in similar worlds. *)
Definition agree {A B} (R : A → B → Prop)
    (m1 : M STATES PAYLOAD A) (m2 : M STATES PAYLOAD B) : Prop :=
  ∀ w1 w2, similar w1 w2 → similar_outcome R (m1 w1) (m2 w2).

(** The two objects [self] read the same value and send alike. *)
Definition agree_self (self1 self2 : Self STATES PAYLOAD) : Prop :=
  (∀ w1 w2, similar w1 w2 → value self1 w1 = value self2 w2) ∧
  (∀ name payload, agree eq (send self1 name payload) (send self2 name payload)).

(** The two instances are the same object, and their public members
    agree, whatever the bound on nesting. *)
Definition agree_instance (i1 i2 : FSMInstance STATES PAYLOAD) : Prop :=
  this_ i1 = this_ i2 ∧ ∀ fuel, agree_self (instance_self i1 fuel) (instance_self i2 fuel).
End Agreement.

(** ** The video player of the test suite (source: [fsm.test.ts]) *)

Module VideoPlayer.
(** [type VideoPlayerState = Idle | Playing | Paused] *)
Inductive VideoPlayerState : Type :=
| Idle
| Playing (currentTime : Z)
| Paused (currentTime : Z).

Definition isIdle (s : VideoPlayerState) : bool :=
  match s with Idle => true | _ => false end.
Definition isPaused (s : VideoPlayerState) : bool :=
  match s with Paused _ => true | _ => false end.
Definition isPlaying (s : VideoPlayerState) : bool :=
  match s with Playing _ => true | _ => false end.

Definition idle : FSMState VideoPlayerState := {| is_ := isIdle |}.
Definition paused : FSMState VideoPlayerState := {| is_ := isPaused |}.
Definition playing : FSMState VideoPlayerState := {| is_ := isPlaying |}.

(** The payloads: [Play], [Stop] and [Pause] are [{}], [Seek] is
    [{ time: number }]. *)
Inductive Payload : Type :=
| Empty
| Seek (time : Z).

(** [const play = FSMMessage.create<Play>()] and the three that follow
    it, from the initial value of [messageId]. *)
Definition descriptors : FSMMessage * FSMMessage * FSMMessage * FSMMessage :=
  let '(play, n) := FSMMessage_create messageId_initial in
  let '(stop, n) := FSMMessage_create n in
  let '(pause, n) := FSMMessage_create n in
  let '(seek, n) := FSMMessage_create n in
  (play, stop, pause, seek).

Definition play : FSMMessage := descriptors.1.1.1.
Definition stop : FSMMessage := descriptors.1.1.2.
Definition pause : FSMMessage := descriptors.1.2.
Definition seek : FSMMessage := descriptors.2.

(** [videoPlayerSkeleton] *)
Definition videoPlayerSkeleton
    : FSMMessagesInitialized VideoPlayerState unit :=
  with_messages
    (withInitialState
       (FSM_states [("idle", idle); ("paused", paused); ("playing", playing)])
       (λ _, Idle))
    [("play", play); ("stop", stop); ("pause", pause); ("seek", seek)].

Abbreviation Handler := (MessageHandler VideoPlayerState Payload).
Abbreviation Entry := (Behavior VideoPlayerState Payload).
Abbreviation Description := (FSMDescription VideoPlayerState Payload unit).

(** The machine of the end-to-end example: [play] from [idle] gives
    [Playing(0)]; in [playing], [seek] gives [Playing(message.time)] and
    [pause] gives [Paused(state.currentTime)]; [play] from [paused]
    gives [Playing(0)]. *)
Definition to_playing_0 : Handler := λ _ _, Return (Playing 0).
Definition on_seek : Handler := λ state message,
  match message with
  | Seek time => Return (Playing time)
  | Empty => Return state
  end.
Definition on_pause : Handler := λ state _,
  match state with
  | Playing currentTime => Return (Paused currentTime)
  | _ => Return state
  end.

Definition player_idle : Entry :=
  {| addr := 0; onEnter := None; handling := {[ "play" := to_playing_0 ]} |}.
Definition player_paused : Entry :=
  {| addr := 1; onEnter := None; handling := {[ "play" := to_playing_0 ]} |}.
Definition player_playing : Entry :=
  {| addr := 2; onEnter := None;
     handling := <[ "seek" := on_seek ]> {[ "pause" := on_pause ]} |}.

Definition videoPlayerDescription : Description :=
  with_behaviors videoPlayerSkeleton
    (<[ "idle" := player_idle ]>
       (<[ "paused" := player_paused ]> {[ "playing" := player_playing ]})).

(** The world in which one instance holds [state] and no hooks, and
    nothing has happened. *)
Definition one_cell (state : VideoPlayerState) : World VideoPlayerState Payload :=
  {| cells := [{| _value := state; _hooks := None |}]; observers := []; trace := [] |}.

(** A behaviors map with no entry. *)
Definition none_of_three : Description :=
  with_behaviors videoPlayerSkeleton ∅.

(** [play, seek(1), seek(2), pause, play] *)
Definition play_seek_seek_pause_play : list (string * Payload) :=
  [("play", Empty); ("seek", Seek 1); ("seek", Seek 2); ("pause", Empty);
   ("play", Empty)].

(** *** Two declared states whose predicates accept every value *)
Definition any_state : FSMState VideoPlayerState := {| is_ := λ _, true |}.

Definition overlappingDescription : Description :=
  with_behaviors
    (with_messages
       (withInitialState
          (FSM_states [("idle", idle); ("first", any_state); ("second", any_state)])
          (λ _, Idle))
       [("play", play)])
    (<[ "first" := player_paused ]> {[ "second" := player_playing ]}).

(** *** The machine of the test 'Second state lifecycle' *)
Definition spied_hooks : Hooks VideoPlayerState Payload :=
  {| onUpdate := Some (λ _ _, Effect "hook.update" (Return ()));
     onExit := Some (λ _, Effect "hook.exit" (Return ())) |}.

Definition spied_playing : Entry :=
  {| addr := 2;
     onEnter := Some (λ _, Effect "hook.enter" (Return (Some spied_hooks)));
     handling := <[ "play" := to_playing_0 ]>
                   {[ "pause" := (λ _ _, Return (Paused 0)) : Handler ]} |}.

Definition lifecycleDescription : Description :=
  with_behaviors videoPlayerSkeleton
    (<[ "idle" := player_idle ]>
       (<[ "paused" := {| addr := 1; onEnter := None; handling := ∅ |} ]>
          {[ "playing" := spied_playing ]})).

(** *** A behaviors map with two of the three declared states *)
Definition two_of_three : Description :=
  with_behaviors videoPlayerSkeleton
    (<[ "idle" := player_idle ]> {[ "playing" := player_playing ]}).

(** *** A lifecycle that sends a message while it runs

    [playing.onEnter] sends [pause] to [self] before it returns its
    hooks, as [idle.onEnter] sends [play] in the last test of the
    suite.  Every hook function signals its own call. *)
Definition signal {A} (label : string) : A → Prog VideoPlayerState Payload unit :=
  λ _, Effect label (Return ()).

Definition idle_hooks : Hooks VideoPlayerState Payload :=
  {| onUpdate := None; onExit := Some (signal "idle.onExit") |}.
Definition playing_hooks : Hooks VideoPlayerState Payload :=
  {| onUpdate := None; onExit := Some (signal "playing.onExit") |}.
Definition paused_hooks : Hooks VideoPlayerState Payload :=
  {| onUpdate := Some (λ _, signal "paused.onUpdate"); onExit := None |}.

Definition eager_idle : Entry :=
  {| addr := 0;
     onEnter := Some (λ _, Return (Some idle_hooks));
     handling := {[ "play" := to_playing_0 ]} |}.
Definition eager_playing : Entry :=
  {| addr := 2;
     onEnter := Some (λ _, SelfSend "pause" Empty (Return (Some playing_hooks)));
     handling := {[ "pause" := on_pause ]} |}.
Definition eager_paused : Entry :=
  {| addr := 1;
     onEnter := Some (λ _, Return (Some paused_hooks));
     handling := <[ "pause" := (λ state _, Return state) : Handler ]>
                   {[ "stop" := (λ _ _, Return Idle) : Handler ]} |}.

Definition eagerDescription : Description :=
  with_behaviors videoPlayerSkeleton
    (<[ "idle" := eager_idle ]>
       (<[ "paused" := eager_paused ]> {[ "playing" := eager_playing ]})).

(** *** A handler that sends a message and returns an undeclared value

    Only [idle] and [playing] are declared.  The handler of [pause] in
    [idle] sends [play] to [self], then returns [Paused(0)]; the handler
    of [pause] in [playing] returns [Paused(state.currentTime)]. *)
Definition send_then_stray : Handler :=
  λ _ _, SelfSend "play" Empty (Return (Paused 0)).

Definition strayDescription : Description :=
  with_behaviors
    (with_messages
       (withInitialState (FSM_states [("idle", idle); ("playing", playing)])
          (λ _, Idle))
       [("play", play); ("pause", pause)])
    (<[ "idle" := {| addr := 0; onEnter := None;
                     handling := <[ "play" := to_playing_0 ]>
                                   {[ "pause" := send_then_stray ]} |} ]>
       {[ "playing" := {| addr := 1; onEnter := None;
                          handling := {[ "pause" := on_pause ]} |} ]}).

(** *** The machine of the test 'State as observable'

    The hook subscribes one callback, which forwards to the subject it
    has just made, and returns the subscription. *)
Definition observablePlayer
    : FSMDescriptionWithObservable VideoPlayerState Payload unit Subscription :=
  observable
    (with_behaviors videoPlayerSkeleton
       (<[ "idle" := player_idle ]>
          (<[ "paused" := {| addr := 1; onEnter := None; handling := ∅ |} ]>
             {[ "playing" := {| addr := 2; onEnter := None;
                                handling := {[ "stop" := (λ _ _, Return Idle) : Handler ]}
                             |} ]})))
    (λ observer, ObsOnValue observer "subject.next" (λ s, ObsReturn s)).

(** The world after [n] calls of [observablePlayer.create({})] in the
    empty world: [n] instances in [idle], [n] observers with one follower
    each, and the [n] deliveries of the initial value, then [later]. *)
Definition observed_world (n : nat) (later : list (Event VideoPlayerState Payload))
    : World VideoPlayerState Payload :=
  {| cells := replicate n {| _value := Idle; _hooks := None |};
     observers := replicate n {| followers := [(0, "subject.next")]; cbId := 1 |};
     trace := ((λ o, Delivered o 0 "subject.next" Idle) <$> seq 0 n) ++ later |}.

(** *** An initial-state factory that returns an undeclared value *)
Definition strayInitialDescription : Description :=
  with_behaviors
    (with_messages
       (withInitialState (FSM_states [("idle", idle); ("playing", playing)])
          (λ _, Paused 0))
       [("play", play); ("pause", pause)])
    (<[ "idle" := player_idle ]> {[ "playing" := player_playing ]}).

(** *** The machine of the test 'Wildcard transition' *)
Definition wildcard_hooks : Hooks VideoPlayerState Payload :=
  {| onUpdate := Some (λ _, signal "idleUpdate"); onExit := None |}.

Definition wildcard_idle : Entry :=
  {| addr := 0;
     onEnter := Some (λ _, Return (Some wildcard_hooks));
     handling := <[ "stop" := (λ _ _, Return Idle) : Handler ]>
                   {[ "_" := (λ _ _, Effect "wildcard" (Return Idle)) : Handler ]} |}.

Definition wildcardDescription : Description :=
  with_behaviors videoPlayerSkeleton
    (<[ "idle" := wildcard_idle ]>
       (<[ "paused" := {| addr := 1; onEnter := None; handling := ∅ |} ]>
          {[ "playing" := {| addr := 2; onEnter := None; handling := ∅ |} ]})).

(** The world after [wildcardDescription.create({})] in the empty
    world. *)
Definition wildcard_world : World VideoPlayerState Payload :=
  {| cells := [{| _value := Idle; _hooks := Some wildcard_hooks |}];
     observers := [];
     trace := [Fired (CallOnEnter 0 Idle)] |}.

(** The world after [lifecycleDescription.create({})] and [send.play({})]
    in the empty world. *)
Definition spied_world : World VideoPlayerState Payload :=
  {| cells := [{| _value := Playing 0; _hooks := Some spied_hooks |}];
     observers := [];
     trace := [Fired (CallOnEnter 2 (Playing 0)); UserEffect "hook.enter"] |}.
End VideoPlayer.


(** * Properties *)

(** ** The message registry *)

Lemma create_many_ids (n : nat) (messageId : MessageId) :
  (create_many n messageId).1 = (λ i, {| _id := i |}) <$> seq messageId n.
Proof.
  revert messageId; induction n as [|n IH]; intros messageId; simpl; [done|].
  specialize (IH (S messageId)).
  destruct (create_many n (S messageId)) as [ms c]; simpl in *. by rewrite IH.
Qed.

Lemma create_many_lookup (n : nat) (messageId : MessageId) (i : nat) (m : FSMMessage) :
  (create_many n messageId).1 !! i = Some m ↔ i < n ∧ m = {| _id := messageId + i |}.
Proof.
  rewrite create_many_ids, list_lookup_fmap. split.
  - intros (j & [-> Hlt]%lookup_seq & ->)%fmap_Some. done.
  - intros [Hlt ->]. by rewrite lookup_seq_lt.
Qed.



(** ** The state registry *)

Section Registry.
Context {STATES PAYLOAD INITIAL : Type}.
Implicit Types (d : FSMDescription STATES PAYLOAD INITIAL) (state : STATES).

(** A name taken from [stateKeys] has its predicate in [states]. *)
Lemma accepts_declared d key state :
  key ∈ stateKeys d →
  ∃ s, obj_get key (states d) = Some s ∧ accepts d key state = is_ s state.
Proof.
  unfold stateKeys, obj_keys, accepts. generalize (states d). intros obj.
  induction obj as [|[k s] obj IH]; simpl.
  - by intros ?%elem_of_nil.
  - intros Hkey. case_decide as Hk; [by exists s|].
    apply elem_of_cons in Hkey as [->|Hkey]; [done|]. by apply IH.
Qed.

Lemma findStateKey_from_Some d keys state key :
  findStateKey_from d keys state = Some key ↔
  ∃ earlier rest,
    keys = earlier ++ key :: rest ∧
    Forall (λ k, accepts d k state = false) earlier ∧
    accepts d key state = true.
Proof.
  induction keys as [|k keys IH]; simpl.
  - split; [done|]. intros (earlier & rest & Heq & _).
    by destruct earlier.
  - destruct (accepts d k state) eqn:Hk.
    + split.
      * intros [= ->]. by exists [], keys.
      * intros ([|k' earlier] & rest & Heq & Hbefore & Hkey).
        -- by injection Heq as -> _.
        -- injection Heq as <- _. apply Forall_cons_1 in Hbefore as [? _].
           congruence.
    + rewrite IH. split.
      * intros (earlier & rest & -> & Hbefore & Hkey).
        exists (k :: earlier), rest. by repeat constructor.
      * intros ([|k' earlier] & rest & Heq & Hbefore & Hkey).
        -- injection Heq as -> _. congruence.
        -- injection Heq as <- ->. apply Forall_cons_1 in Hbefore as [_ ?].
           by exists earlier, rest.
Qed.

Lemma findStateKey_from_None d keys state :
  findStateKey_from d keys state = None ↔
  Forall (λ k, accepts d k state = false) keys.
Proof.
  induction keys as [|k keys IH]; simpl; [by split|].
  destruct (accepts d k state) eqn:Hk.
  - split; [done|]. intros [? _]%Forall_cons_1. congruence.
  - rewrite IH. split; [by constructor | by intros [_ ?]%Forall_cons_1].
Qed.

End Registry.


(** ** The engine *)

Section EngineFacts.
Context {STATES PAYLOAD INITIAL : Type}.
Implicit Types (d : FSMDescription STATES PAYLOAD INITIAL).
Implicit Types (w : World STATES PAYLOAD) (self : Self STATES PAYLOAD).
Implicit Types (e : Event STATES PAYLOAD) (fuel : nat).

(** *** Sequencing *)

Lemma bind_finished {A B} (m : M STATES PAYLOAD A) (f : A → M STATES PAYLOAD B) w :
  within_bound (bind m f w) → within_bound (m w).
Proof. unfold bind. by destruct (m w). Qed.

(** *** A relation kept by every step is kept by a send *)

Section Respects.
Variable R : relation (World STATES PAYLOAD).
Context `{!PreOrder R}.

Lemma respects_ret {A} (a : A) : respects R (ret a).
Proof. intros w. reflexivity. Qed.

Lemma respects_throw {A} (x : Exn) : respects R (throw (A:=A) x).
Proof. intros w. reflexivity. Qed.

Lemma respects_gets {A} (f : World STATES PAYLOAD → A) : respects R (gets f).
Proof. intros w. reflexivity. Qed.

Lemma respects_modify (f : World STATES PAYLOAD → World STATES PAYLOAD) :
  (∀ w, R w (f w)) → respects R (modify f).
Proof. intros Hf w. apply Hf. Qed.

Lemma respects_bind {A B} (m : M STATES PAYLOAD A) (f : A → M STATES PAYLOAD B) :
  respects R m → (∀ a, respects R (f a)) → respects R (bind m f).
Proof.
  intros Hm Hf w. unfold bind. specialize (Hm w).
  destruct (m w) as [a w1|x w1|w1]; simpl in *; [|done..].
  transitivity w1; [done|apply Hf].
Qed.

(** The engine itself writes to the console and records its calls of
    hooks; user code has effects of its own. *)
Hypothesis R_log : ∀ e w, (∀ o c l t, e ≠ Delivered o c l t) → R w (log e w).

Lemma respects_emit e : (∀ o c l t, e ≠ Delivered o c l t) → respects R (emit e).
Proof. intros He w. by apply R_log. Qed.

Lemma exec_respects {A} self (p : Prog STATES PAYLOAD A) :
  (∀ name payload, respects R (send self name payload)) →
  respects R (exec self p).
Proof.
  intros Hsend. induction p as [r|k IH|name payload k IH|label k IH]; simpl.
  - apply respects_ret.
  - intros w. apply IH.
  - apply respects_bind; [apply Hsend|done].
  - apply respects_bind; [by apply respects_emit|done].
Qed.

Section Accessors.
Variable d : FSMDescription STATES PAYLOAD INITIAL.
Variable stateSet : STATES → World STATES PAYLOAD → World STATES PAYLOAD.
Variable stateGet : World STATES PAYLOAD → STATES.
Variable hookSet : option (Hooks STATES PAYLOAD) → World STATES PAYLOAD → World STATES PAYLOAD.
Variable hookGet : World STATES PAYLOAD → option (Hooks STATES PAYLOAD).
Hypothesis R_stateSet : ∀ state w, R w (stateSet state w).
Hypothesis R_hookSet : ∀ hooks w, R w (hookSet hooks w).

Lemma send_body_respects self message payload :
  (∀ name payload, respects R (send self name payload)) →
  respects R (send_body d stateSet stateGet hookSet hookGet self message payload).
Proof.
  intros Hsend. unfold send_body.
  apply respects_bind; [apply respects_gets|]. intros state.
  repeat first
    [ apply respects_ret
    | apply respects_throw
    | apply respects_gets
    | by apply respects_modify
    | by apply respects_emit
    | by apply exec_respects
    | apply respects_bind; [|intros ?]
    | case_match ].
Qed.

Lemma send_property_respects (f : FSMMessage → PAYLOAD → M STATES PAYLOAD unit)
    name payload :
  (∀ message payload, respects R (f message payload)) →
  respects R (send_property d f name payload).
Proof.
  intros Hf. unfold send_property. case_match; [apply Hf|apply respects_throw].
Qed.

Lemma sendFactory_respects fuel message payload :
  respects R (sendFactory d stateSet stateGet hookSet hookGet fuel message payload).
Proof.
  revert message payload. induction fuel as [|fuel IH]; intros message payload.
  - intros w. reflexivity.
  - simpl. apply send_body_respects. intros name payload'; simpl.
    by apply send_property_respects.
Qed.

Lemma dispatch_respects fuel name payload :
  respects R (send (dispatch d stateSet stateGet hookSet hookGet fuel) name payload).
Proof. simpl. apply send_property_respects, sendFactory_respects. Qed.
End Accessors.
End Respects.

(** *** A larger bound on nesting gives the same result *)

Lemma ends_as_refl {A} (m : M STATES PAYLOAD A) : ends_as m m.
Proof. by intros w _. Qed.

Lemma ends_as_bind {A B} (m1 m2 : M STATES PAYLOAD A) (f1 f2 : A → M STATES PAYLOAD B) :
  ends_as m1 m2 → (∀ a, ends_as (f1 a) (f2 a)) → ends_as (bind m1 f1) (bind m2 f2).
Proof.
  intros Hm Hf w Hfin. pose proof (bind_finished _ _ _ Hfin) as Hmw.
  unfold bind in *. rewrite (Hm w Hmw).
  destruct (m1 w) as [a w1| |]; [by apply Hf|done|done].
Qed.

Lemma exec_ends_as {A} self1 self2 (p : Prog STATES PAYLOAD A) :
  value self1 = value self2 →
  (∀ name payload, ends_as (send self1 name payload) (send self2 name payload)) →
  ends_as (exec self1 p) (exec self2 p).
Proof.
  intros Hvalue Hsend. induction p as [r|k IH|name payload k IH|label k IH]; simpl.
  - apply ends_as_refl.
  - intros w. rewrite Hvalue. apply IH.
  - by apply ends_as_bind.
  - apply ends_as_bind; [apply ends_as_refl|done].
Qed.

Section MoreFuel.
Variable d : FSMDescription STATES PAYLOAD INITIAL.
Variable stateSet : STATES → World STATES PAYLOAD → World STATES PAYLOAD.
Variable stateGet : World STATES PAYLOAD → STATES.
Variable hookSet : option (Hooks STATES PAYLOAD) → World STATES PAYLOAD → World STATES PAYLOAD.
Variable hookGet : World STATES PAYLOAD → option (Hooks STATES PAYLOAD).

Lemma send_body_ends_as self1 self2 message payload :
  value self1 = value self2 →
  (∀ name payload, ends_as (send self1 name payload) (send self2 name payload)) →
  ends_as (send_body d stateSet stateGet hookSet hookGet self1 message payload)
          (send_body d stateSet stateGet hookSet hookGet self2 message payload).
Proof.
  intros Hvalue Hsend. unfold send_body.
  apply ends_as_bind; [apply ends_as_refl|]. intros state.
  repeat first
    [ apply ends_as_refl
    | by apply exec_ends_as
    | apply ends_as_bind; [|intros ?]
    | case_match ].
Qed.

Lemma sendFactory_more_fuel fuel (fuel' : nat) message payload :
  (fuel ≤ fuel')%nat →
  ends_as (sendFactory d stateSet stateGet hookSet hookGet fuel message payload)
          (sendFactory d stateSet stateGet hookSet hookGet fuel' message payload).
Proof.
  revert fuel' message payload.
  induction fuel as [|fuel IH]; intros fuel' message payload Hle.
  - by intros w.
  - destruct fuel' as [|fuel']; [lia|]. simpl.
    apply send_body_ends_as; [done|]. intros name payload'; simpl.
    unfold send_property. case_match; [|apply ends_as_refl].
    apply IH. lia.
Qed.

Lemma dispatch_more_fuel fuel (fuel' : nat) name payload :
  (fuel ≤ fuel')%nat →
  ends_as (send (dispatch d stateSet stateGet hookSet hookGet fuel) name payload)
          (send (dispatch d stateSet stateGet hookSet hookGet fuel') name payload).
Proof.
  intros Hle. simpl. unfold send_property.
  case_match; [by apply sendFactory_more_fuel|apply ends_as_refl].
Qed.
End MoreFuel.

(** *** Scripts that send nothing *)

(** A script that sends nothing returns, and leaves every instance and
    every observer as it was. *)
Lemma exec_sends_nothing {A} self (p : Prog STATES PAYLOAD A) w :
  sends_nothing p →
  ∃ r effects,
    exec self p w =
      Done r {| cells := cells w; observers := observers w;
                trace := trace w ++ effects |} ∧
    Forall (λ e, ∀ c, e ≠ Fired c) effects.
Proof.
  intros Hp. revert w. induction Hp as [r|k _ IH|label k _ IH]; intros w; simpl.
  - exists r, []. rewrite app_nil_r. by destruct w.
  - apply IH.
  - destruct (IH (log (UserEffect label) w)) as (r & effects & Hexec & Heffects).
    exists r, (UserEffect label :: effects). split.
    + unfold bind, emit. rewrite Hexec. simpl. by rewrite <-app_assoc.
    + by constructor.
Qed.

Lemma sendFactory_S d stateSet stateGet hookSet hookGet fuel message payload :
  sendFactory d stateSet stateGet hookSet hookGet (S fuel) message payload =
  send_body d stateSet stateGet hookSet hookGet
    (dispatch d stateSet stateGet hookSet hookGet fuel) message payload.
Proof. done. Qed.

(** *** Sends that find no behavior *)

Lemma send_without_behavior d stateSet stateGet hookSet hookGet fuel message payload w :
  findStateBehavior d (stateGet w) = None →
  sendFactory d stateSet stateGet hookSet hookGet (S fuel) message payload w =
    Threw (Error could_not_find)
      (log (ConsoleError (NoMatchingState (stateGet w) message payload)) w).
Proof.
  intros Hnone. rewrite sendFactory_S. unfold send_body, bind, gets.
  by rewrite Hnone.
Qed.

Lemma create_without_behavior d initial fuel w :
  findStateBehavior d (factory d initial) = None →
  ∃ inst,
    create d initial fuel w =
      Done inst (with_cells
                   (λ cs, cs ++ [{| _value := factory d initial; _hooks := None |}]) w) ∧
    this_ inst = length (cells w) ∧
    instance_self inst =
      dispatch d (set_this_value (length (cells w)))
        (this_value (length (cells w)) (factory d initial))
        (set_this_hooks (length (cells w))) (this_hooks (length (cells w))).
Proof.
  intros Hnone. eexists. unfold create, FSMInstance_new.
  assert (this_value (length (cells w)) (factory d initial)
            (with_cells (λ cs, cs ++ [{| _value := factory d initial; _hooks := None |}]) w)
          = factory d initial) as ->.
  { unfold this_value; simpl. by rewrite lookup_app_r, Nat.sub_diag by lia. }
  rewrite Hnone. done.
Qed.


(** C5, as amended.  A send whose transition function returns a value that
    no declared predicate accepts throws to its caller.  The value is not
    committed and the send calls no hook: the world in which it throws
    is the one the transition function left, with one more line on the
    console.  If the transition function sent no message, the value and
    the hooks of the instance are those from before the call, and no
    hook was called since. *)
Theorem unresolved_transition_raises d stateSet hookSet (this : nat)
    (initialValue : STATES) fuel message payload w
    stateBehavior messageKey messageTransition newState w1 :
  let stateGet := this_value this initialValue in
  let hookGet := this_hooks this in
  let self := dispatch d stateSet stateGet hookSet hookGet fuel in
  findStateBehavior d (stateGet w) = Some stateBehavior →
  reverseMessageMap d !! _id message = Some messageKey →
  handling stateBehavior !! messageKey ∪ handling stateBehavior !! "_"
    = Some messageTransition →
  exec self (messageTransition (stateGet w) payload) w = Done newState w1 →
  findStateKey d newState = None →
  ∃ w',
    sendFactory d stateSet stateGet hookSet hookGet (S fuel) message payload w
      = Threw (Error could_not_find) w' ∧
    w' = log (ConsoleError (NoMatchingState newState message payload)) w1 ∧
    stateGet w' = stateGet w1 ∧ hookGet w' = hookGet w1 ∧
    (sends_nothing (messageTransition (stateGet w) payload) →
     stateGet w' = stateGet w ∧ hookGet w' = hookGet w ∧
     cells w' = cells w ∧ observers w' = observers w ∧
     ∃ emitted, trace w' = trace w ++ emitted ∧
                Forall (λ e, ∀ c, e ≠ Fired c) emitted).
Proof.
  intros stateGet hookGet self Hbehavior Hmessage Hhandler Hexec Hnew.
  eexists. split_and!.
  - rewrite sendFactory_S. fold self. unfold send_body, bind, gets.
    rewrite Hbehavior, Hmessage, Hhandler, Hexec.
    unfold findStateBehavior. rewrite Hnew. reflexivity.
  - done.
  - done.
  - done.
  - intros Hpure.
    destruct (exec_sends_nothing self _ w Hpure) as (r & effects & Hexec' & Heffects).
    rewrite Hexec in Hexec'. injection Hexec' as -> ->.
    split_and!; try done.
    exists (effects ++ [ConsoleError (NoMatchingState r message payload)]).
    split; [simpl; by rewrite <-app_assoc|].
    apply Forall_app. split; [done|]. by repeat constructor.
Qed.

(** C10.  When no declared predicate accepts the value of the
    initial-state factory, [create] returns an instance, whatever the
    bound on nesting: the instance holds that value and no hooks, and
    nothing was called or logged.  Any send on the instance in that
    world then throws, after one error line on the console. *)
Theorem unresolved_initial_value d (initial : INITIAL) fuel w :
  let initialValue := factory d initial in
  findStateKey d initialValue = None →
  ∃ inst w',
    create d initial fuel w = Done inst w' ∧
    this_ inst = length (cells w) ∧
    cells w' = cells w ++ [{| _value := initialValue; _hooks := None |}] ∧
    observers w' = observers w ∧ trace w' = trace w ∧
    value (instance_self inst fuel) w' = initialValue ∧
    this_hooks (this_ inst) w' = None ∧
    ∀ (fuel' : nat) name message payload,
      obj_get name (messages d) = Some message →
      send (instance_self inst (S fuel')) name payload w' =
        Threw (Error could_not_find)
          (log (ConsoleError (NoMatchingState initialValue message payload)) w').
Proof.
  intros initialValue Hnone. subst initialValue.
  assert (findStateBehavior d (factory d initial) = None) as Hbehavior.
  { unfold findStateBehavior. by rewrite Hnone. }
  destruct (create_without_behavior d initial fuel w Hbehavior)
    as (inst & Hcreate & Hthis & Hself).
  assert (this_value (length (cells w)) (factory d initial)
            (with_cells
               (λ cs, cs ++ [{| _value := factory d initial; _hooks := None |}]) w)
          = factory d initial) as Hvalue.
  { unfold this_value; simpl. by rewrite lookup_app_r, Nat.sub_diag by lia. }
  eexists inst, _. split_and!; try done.
  - by rewrite Hself.
  - rewrite Hthis. unfold this_hooks; simpl.
    by rewrite lookup_app_r, Nat.sub_diag by lia.
  - intros fuel' name message payload Hname. rewrite Hself.
    cbn [send dispatch]. unfold send_property. rewrite Hname.
    rewrite (send_without_behavior d) by (by rewrite Hvalue).
    by rewrite Hvalue.
Qed.


(** *** Instances *)

(** The instance that [create] returns: its fields are in the cell
    allocated last, and its [send] is the dispatcher over them. *)
Lemma create_instance d initial fuel w inst w' :
  create d initial fuel w = Done inst w' →
  this_ inst = length (cells w) ∧
  instance_self inst =
    dispatch d (set_this_value (length (cells w)))
      (this_value (length (cells w)) (factory d initial))
      (set_this_hooks (length (cells w))) (this_hooks (length (cells w))).
Proof.
  unfold create, FSMInstance_new.
  repeat case_match; unfold bind, emit, modify, ret;
    repeat case_match; try done; by intros [= <- _].
Qed.

Lemma create_more_fuel d initial fuel (fuel' : nat) :
  (fuel ≤ fuel')%nat → ends_as (create d initial fuel) (create d initial fuel').
Proof.
  intros Hle w. unfold create, FSMInstance_new.
  repeat case_match; try done.
  apply ends_as_bind; [apply ends_as_refl|]. intros _.
  apply ends_as_bind; [|intros ?; apply ends_as_refl].
  apply exec_ends_as; [done|]. intros name payload.
  by apply dispatch_more_fuel.
Qed.

Lemma send_each_ends_as self1 self2 (sent : list (string * PAYLOAD)) :
  (∀ name payload, ends_as (send self1 name payload) (send self2 name payload)) →
  ends_as (send_each self1 sent) (send_each self2 sent).
Proof.
  intros Hsend. induction sent as [|[name payload] sent IH]; simpl.
  - apply ends_as_refl.
  - by apply ends_as_bind.
Qed.

Lemma create_send_more_fuel d initial sent fuel (fuel' : nat) :
  (fuel ≤ fuel')%nat →
  ends_as (create_send d initial sent fuel) (create_send d initial sent fuel').
Proof.
  intros Hle w Hfin. unfold create_send in *.
  pose proof (bind_finished _ _ _ Hfin) as Hcreate.
  unfold bind in *. rewrite (create_more_fuel d initial fuel fuel' Hle w Hcreate).
  destruct (create d initial fuel w) as [inst w1| |] eqn:Hinst; [|done|done].
  apply create_instance in Hinst as [_ Hself]. rewrite Hself in *.
  assert (within_bound
            (send_each (dispatch d (set_this_value (length (cells w)))
                          (this_value (length (cells w)) (factory d initial))
                          (set_this_hooks (length (cells w)))
                          (this_hooks (length (cells w))) fuel) sent w1))
    as Hsent by (by case_match).
  rewrite (send_each_ends_as _ _ sent
             (λ name payload, dispatch_more_fuel d _ _ _ _ fuel fuel' name payload Hle)
             w1 Hsent).
  done.
Qed.

Lemma create_send_value_more_fuel d initial sent fuel (fuel' : nat) :
  (fuel ≤ fuel')%nat →
  ends_as (create_send_value d initial sent fuel)
          (create_send_value d initial sent fuel').
Proof.
  intros Hle w Hfin. unfold create_send_value in *.
  pose proof (bind_finished _ _ _ Hfin) as Hcreate.
  unfold bind in *. rewrite (create_send_more_fuel d initial sent fuel fuel' Hle w Hcreate).
  destruct (create_send d initial sent fuel w) as [inst w1| |] eqn:Hinst; [|done|done].
  unfold create_send, bind in Hinst.
  destruct (create d initial fuel w) as [inst' w2| |] eqn:Hinst'; [|done|done].
  apply create_instance in Hinst' as [_ Hself].
  destruct (send_each _ _ _); [|done|done].
  injection Hinst as <- _. by rewrite Hself.
Qed.
Lemma create_send_instance d initial sent fuel w inst w' :
  create_send d initial sent fuel w = Done inst w' →
  this_ inst = length (cells w) ∧
  instance_self inst =
    dispatch d (set_this_value (length (cells w)))
      (this_value (length (cells w)) (factory d initial))
      (set_this_hooks (length (cells w))) (this_hooks (length (cells w))).
Proof.
  unfold create_send, bind.
  destruct (create d initial fuel w) as [inst' w1| |] eqn:Hcreate; [|done..].
  destruct (send_each _ _ _); [|done..].
  intros [= <- _]. by eapply create_instance.
Qed.

(** A call that returned, and the world in which it ended. *)
Lemma returned_in {A} (o : Outcome STATES PAYLOAD A) w :
  returned o = true → world_of o = w → ∃ a, o = Done a w.
Proof. destruct o as [a w'| |]; [|done..]. intros _ [= ->]. by exists a. Qed.
End EngineFacts.

(** ** The observable adapter *)

Section ObservableFacts.
Context {STATES PAYLOAD INITIAL OBSERVABLE : Type}.
Implicit Types (d : FSMDescription STATES PAYLOAD INITIAL).
Implicit Types (od : FSMDescriptionWithObservable STATES PAYLOAD INITIAL OBSERVABLE).
Implicit Types (w : World STATES PAYLOAD) (e : Event STATES PAYLOAD).
Implicit Types (fuel observer this : nat).

#[local] Instance quiet_elsewhere_preorder observer :
  PreOrder (quiet_elsewhere (STATES:=STATES) (PAYLOAD:=PAYLOAD) observer).
Proof.
  split.
  - intros w. split; [done|]. exists []. by rewrite app_nil_r.
  - intros w1 w2 w3 (Ho12 & em12 & Ht12 & Hq12) (Ho23 & em23 & Ht23 & Hq23).
    split; [congruence|]. exists (em12 ++ em23). split.
    + by rewrite Ht23, Ht12, <-app_assoc.
    + by apply Forall_app.
Qed.

Lemma quiet_elsewhere_log observer e w :
  (∀ o c l t, e ≠ Delivered o c l t) → quiet_elsewhere observer w (log e w).
Proof.
  intros He. split; [done|]. exists [e]. split; [done|].
  repeat constructor. destruct e; try done. by destruct (He observer0 callbackId callback t).
Qed.

Lemma quiet_elsewhere_with_cells observer f w :
  quiet_elsewhere observer w (with_cells f w).
Proof. split; [done|]. exists []. by rewrite app_nil_r. Qed.

(** [next] calls the followers of its observer, in the order of their
    keys, and does nothing else. *)
Lemma next_deliveries observer (t : STATES) w :
  next observer t w =
    {| cells := cells w; observers := observers w;
       trace := trace w ++
                ((λ f, Delivered observer f.1 f.2 t) <$>
                   from_option followers [] (observers w !! observer)) |}.
Proof.
  unfold next. generalize (from_option followers [] (observers w !! observer)).
  intros fs. revert w. induction fs as [|f fs IH]; intros w; simpl.
  - rewrite app_nil_r. by destruct w.
  - rewrite IH. simpl. by rewrite <-app_assoc.
Qed.

Lemma quiet_elsewhere_next observer (t : STATES) w :
  quiet_elsewhere observer w (next observer t w).
Proof.
  rewrite next_deliveries. split; [done|]. eexists. split; [done|].
  apply Forall_fmap, Forall_forall. intros f _. simpl.
  by rewrite bool_decide_false by auto.
Qed.

(** The hook subscribes and unsubscribes: the observers stay as many, and
    nothing else changes. *)
Lemma run_hook_frame {R} (p : ObsProg R) w r w' :
  run_hook p w = (r, w') →
  length (observers w') = length (observers w) ∧
  cells w' = cells w ∧ trace w' = trace w.
Proof.
  revert w. induction p as [r0|observer callback k IH|s k IH]; intros w; simpl.
  - by intros [= _ <-].
  - intros Hrun. apply IH in Hrun as (Hlen & Hcells & Htrace).
    split_and!; [|done..]. rewrite Hlen. simpl. by rewrite length_alter.
  - intros Hrun. apply IH in Hrun as (Hlen & Hcells & Htrace).
    split_and!; [|done..]. rewrite Hlen. simpl. by rewrite length_alter.
Qed.

(** The instance that the constructor returns. *)
Lemma FSMInstance_new_instance (initialValue : STATES)
    (dispatch : Dispatch STATES PAYLOAD) findStateBehavior fuel w inst w' :
  FSMInstance_new initialValue dispatch findStateBehavior fuel w = Done inst w' →
  this_ inst = length (cells w) ∧
  instance_self inst =
    dispatch (set_this_value (length (cells w)))
      (this_value (length (cells w)) initialValue)
      (set_this_hooks (length (cells w))) (this_hooks (length (cells w))).
Proof.
  unfold FSMInstance_new.
  repeat case_match; unfold bind, emit, modify, ret;
    repeat case_match; try done; by intros [= <- _].
Qed.

Lemma FSMInstance_new_respects (R : relation (World STATES PAYLOAD)) `{!PreOrder R}
    (initialValue : STATES) (dispatch : Dispatch STATES PAYLOAD) findStateBehavior fuel :
  (∀ e w, (∀ o c l t, e ≠ Delivered o c l t) → R w (log e w)) →
  (∀ f w, R w (with_cells f w)) →
  (∀ this name payload,
     respects R (send (dispatch (set_this_value this) (this_value this initialValue)
                         (set_this_hooks this) (this_hooks this) fuel) name payload)) →
  respects R (FSMInstance_new initialValue dispatch findStateBehavior fuel).
Proof.
  intros Hlog Hcells Hsend w. unfold FSMInstance_new.
  etransitivity; [apply (Hcells (λ cs, cs ++ [{| _value := initialValue; _hooks := None |}]))|].
  destruct (findStateBehavior _) as [initialBehavior|]; [|reflexivity].
  destruct (onEnter initialBehavior) as [f|]; [|reflexivity].
  refine (respects_bind R _ _ _ _ _); [by apply (respects_emit R Hlog)|intros _].
  apply (respects_bind R); [by apply (exec_respects R Hlog)|intros hooks].
  apply (respects_bind R); [|intros _; apply (respects_ret R)].
  apply (respects_modify R). intros w0. apply Hcells.
Qed.

(** The instance that [create] returns on an observable description: its
    observer is the one allocated last, and its state setter is the
    setter of its cell followed by [next] on that observer. *)
Lemma create_observable_instance od initial fuel w inst w' :
  create_observable od initial fuel w = Done inst w' →
  let observer := length (observers w) in
  let this := length (cells w) in
  observer_ inst = observer ∧
  this_ (instance inst) = this ∧
  instance_self (instance inst) =
    dispatch (description od)
      (λ state w, next observer state (set_this_value this state w))
      (this_value this (factory (description od) initial))
      (set_this_hooks this) (this_hooks this) ∧
  length (observers w') = S observer ∧
  ∃ emitted,
    trace w' = trace w ++ emitted ∧
    Forall (λ e, delivered_elsewhere observer e = false) emitted.
Proof.
  intros Hcreate observer this. unfold create_observable in Hcreate.
  destruct (run_hook _ _) as [hookResult wb] eqn:Hhook.
  apply run_hook_frame in Hhook as (Hlen & Hcells & Htrace). simpl in Hlen, Hcells, Htrace.
  unfold bind in Hcreate.
  destruct (FSMInstance_new _ _ _ _ _) as [i wd| |] eqn:Hnew; [|done..].
  injection Hcreate as <- <-. simpl.
  pose proof Hnew as Hinst. apply FSMInstance_new_instance in Hinst as [Hthis Hself].
  rewrite next_deliveries in Hthis, Hself; simpl in Hthis, Hself.
  rewrite Hcells in Hthis, Hself.
  assert (quiet_elsewhere observer
            (next observer (factory (description od) initial) wb) wd)
    as (Hobs & emitted & Hemitted & Hquiet).
  { change wd with (world_of (Done i wd)). rewrite <-Hnew.
    apply (FSMInstance_new_respects (quiet_elsewhere observer));
      [apply quiet_elsewhere_log|apply quiet_elsewhere_with_cells|].
    intros this' name payload.
    apply (dispatch_respects (quiet_elsewhere observer) (quiet_elsewhere_log observer)).
    - intros state w0. etransitivity; [|apply quiet_elsewhere_next].
      apply quiet_elsewhere_with_cells.
    - intros hooks w0. apply quiet_elsewhere_with_cells. }
  rewrite next_deliveries in Hobs, Hemitted. simpl in Hobs, Hemitted.
  split_and!; [done|done|done| |].
  - rewrite Hobs, Hlen, length_app. simpl. unfold observer. lia.
  - eexists. rewrite Hemitted, Htrace, <-app_assoc. split; [done|].
    apply Forall_app. split; [|done].
    apply Forall_fmap, Forall_forall. intros f _. simpl.
    by rewrite bool_decide_false by auto.
Qed.
Lemma send_observable_quiet od initial fuel w inst w' (fuel' : nat) name payload :
  create_observable od initial fuel w = Done inst w' →
  respects (quiet_elsewhere (observer_ inst))
    (send (instance_self (instance inst) fuel') name payload).
Proof.
  intros (-> & _ & -> & _)%create_observable_instance.
  apply (dispatch_respects (quiet_elsewhere _) (quiet_elsewhere_log _)).
  - intros state w0. etransitivity; [|apply quiet_elsewhere_next].
    apply quiet_elsewhere_with_cells.
  - intros hooks w0. apply quiet_elsewhere_with_cells.
Qed.

Lemma quiet_elsewhere_other (mine other : nat) (emitted : list (Event STATES PAYLOAD)) :
  other ≠ mine →
  Forall (λ e, delivered_elsewhere mine e = false) emitted →
  Forall (λ e, ∀ c l t, e ≠ Delivered other c l t) emitted.
Proof.
  intros Hne Hmine. eapply Forall_impl; [exact Hmine|].
  intros e He c l t ->. simpl in He. by rewrite bool_decide_true in He.
Qed.

(** C8.  Two instances created from the same observable description, the
    second in any world in which the observer of the first still exists.
    Their observers are two different objects.  Creating the second
    delivers nothing to a follower of the first's observer.  A send on
    either instance, from any world and with any bound on nesting, changes
    no observer and delivers nothing to a follower of the other's
    observer, whether it returns, throws, or is cut short by the bound. *)
Theorem observable_isolation od initial1 initial2 (fuel1 fuel2 : nat)
    w0 first w1 w1' second w2 :
  create_observable od initial1 fuel1 w0 = Done first w1 →
  (length (observers w1) ≤ length (observers w1'))%nat →
  create_observable od initial2 fuel2 w1' = Done second w2 →
  observer_ first ≠ observer_ second ∧
  (∃ emitted,
     trace w2 = trace w1' ++ emitted ∧
     Forall (λ e, ∀ c l t, e ≠ Delivered (observer_ first) c l t) emitted) ∧
  (∀ (fuel : nat) name payload w,
     let w' := world_of (send (instance_self (instance second) fuel) name payload w) in
     observers w' = observers w ∧
     ∃ emitted,
       trace w' = trace w ++ emitted ∧
       Forall (λ e, ∀ c l t, e ≠ Delivered (observer_ first) c l t) emitted) ∧
  (∀ (fuel : nat) name payload w,
     let w' := world_of (send (instance_self (instance first) fuel) name payload w) in
     observers w' = observers w ∧
     ∃ emitted,
       trace w' = trace w ++ emitted ∧
       Forall (λ e, ∀ c l t, e ≠ Delivered (observer_ second) c l t) emitted).
Proof.
  intros Hfirst Hlater Hsecond.
  pose proof (create_observable_instance _ _ _ _ _ _ Hfirst)
    as (Ho1 & _ & _ & Hlen1 & _).
  pose proof (create_observable_instance _ _ _ _ _ _ Hsecond)
    as (Ho2 & _ & _ & _ & emitted2 & Htrace2 & Hquiet2).
  simpl in Ho1, Ho2, Hlen1.
  assert (observer_ first ≠ observer_ second) as Hne by lia.
  split_and!; [done| | |].
  - exists emitted2. split; [done|].
    apply (quiet_elsewhere_other (observer_ second)); [done|by rewrite Ho2].
  - intros fuel name payload w w'.
    destruct (send_observable_quiet _ _ _ _ _ _ fuel name payload Hsecond w)
      as (Hobs & emitted & Htrace & Hquiet).
    split; [done|]. exists emitted. split; [done|].
    by apply (quiet_elsewhere_other (observer_ second)).
  - intros fuel name payload w w'.
    destruct (send_observable_quiet _ _ _ _ _ _ fuel name payload Hfirst w)
      as (Hobs & emitted & Htrace & Hquiet).
    split; [done|]. exists emitted. split; [done|].
    by apply (quiet_elsewhere_other (observer_ first)).
Qed.
End ObservableFacts.


(** ** Residency when user code sends no message *)

Section ResidencyFacts.
Context {STATES PAYLOAD INITIAL : Type}.
Implicit Types (d : FSMDescription STATES PAYLOAD INITIAL).
Implicit Types (w : World STATES PAYLOAD) (self : Self STATES PAYLOAD).
Implicit Types (e : Event STATES PAYLOAD) (c : Cell STATES PAYLOAD).
Implicit Types (fuel this : nat).

Local Abbreviation plain d this initialValue :=
  (dispatch d (set_this_value this) (this_value this initialValue)
     (set_this_hooks this) (this_hooks this)).

Lemma fired_calls_app (evs1 evs2 : list (Event STATES PAYLOAD)) :
  fired_calls (evs1 ++ evs2) = fired_calls evs1 ++ fired_calls evs2.
Proof. apply omap_app. Qed.

Lemma fired_calls_log e w :
  fired_calls (trace (log e w)) =
  fired_calls (trace w) ++ match e with Fired c => [c] | _ => [] end.
Proof. simpl. rewrite fired_calls_app. by destruct e. Qed.

(** A script that sends nothing returns what [result_of] says, and calls
    no hook. *)
Lemma exec_quiet {A} self (p : Prog STATES PAYLOAD A) w :
  (∀ w1 w2, cells w1 = cells w2 → value self w1 = value self w2) →
  sends_nothing p →
  ∃ w',
    exec self p w = Done (result_of p (value self w)) w' ∧
    cells w' = cells w ∧ observers w' = observers w ∧
    fired_calls (trace w') = fired_calls (trace w).
Proof.
  intros Hvalue Hp. revert w. induction Hp as [r|k _ IH|label k _ IH]; intros w; simpl.
  - by exists w.
  - apply IH.
  - destruct (IH (log (UserEffect label) w)) as (w' & Hexec & Hcells & Hobs & Hfired).
    exists w'. unfold bind, emit. rewrite Hexec.
    rewrite (Hvalue (log (UserEffect label) w) w) by done.
    split_and!; try done. rewrite Hfired, fired_calls_log. apply app_nil_r.
Qed.

Lemma this_value_at this (initialValue : STATES) w c :
  cells w !! this = Some c → this_value this initialValue w = _value c.
Proof. unfold this_value. by intros ->. Qed.

Lemma this_hooks_at this w c :
  cells w !! this = Some c → this_hooks this w = _hooks c.
Proof. unfold this_hooks. by intros ->. Qed.

Lemma set_this_value_at this (state : STATES) w c :
  cells w !! this = Some c →
  cells (set_this_value this state w) !! this =
    Some {| _value := state; _hooks := _hooks c |}.
Proof. intros Hc. simpl. by rewrite list_lookup_alter_eq, Hc. Qed.

Lemma set_this_hooks_at this hooks w c :
  cells w !! this = Some c →
  cells (set_this_hooks this hooks w) !! this =
    Some {| _value := _value c; _hooks := hooks |}.
Proof. intros Hc. simpl. by rewrite list_lookup_alter_eq, Hc. Qed.

Lemma findStateBehavior_declared d state entry :
  findStateBehavior d state = Some entry → ∃ key, behaviors d !! key = Some entry.
Proof. unfold findStateBehavior. case_match; [eauto|done]. Qed.

Lemma plain_value_cells d this (initialValue : STATES) fuel w1 w2 :
  cells w1 = cells w2 →
  value (plain d this initialValue fuel) w1 = value (plain d this initialValue fuel) w2.
Proof. simpl. unfold this_value. by intros ->. Qed.

(** A quiet script run by the instance in cell [this]. *)
Lemma exec_quiet_at {A} d this (initialValue : STATES) fuel
    (p : Prog STATES PAYLOAD A) w c :
  sends_nothing p →
  cells w !! this = Some c →
  ∃ w',
    exec (plain d this initialValue fuel) p w = Done (result_of p (_value c)) w' ∧
    cells w' = cells w ∧
    fired_calls (trace w') = fired_calls (trace w).
Proof.
  intros Hp Hc.
  destruct (exec_quiet (plain d this initialValue fuel) p w) as (w' & Hexec & Hcells & _ & Hfired);
    [apply plain_value_cells|done|].
  exists w'. split_and!; [|done..].
  rewrite Hexec. cbn [value dispatch]. by rewrite (this_value_at this initialValue w c Hc).
Qed.

(** The call of an optional lifecycle function that sends nothing. *)
Lemma call_quiet {A} d this (initialValue : STATES) fuel (function : option A)
    (body : A → Prog STATES PAYLOAD ()) (call : HookCall STATES) w c :
  cells w !! this = Some c →
  (∀ f, function = Some f → sends_nothing (body f)) →
  ∃ w',
    match function with
    | Some f =>
        bind (emit (Fired call)) (λ _, exec (plain d this initialValue fuel) (body f))
    | None => ret ()
    end w = Done () w' ∧
    cells w' = cells w ∧
    fired_calls (trace w') = fired_calls (trace w) ++ call_if function call.
Proof.
  intros Hc Hquiet. destruct function as [f|]; simpl.
  - destruct (exec_quiet_at d this initialValue fuel (body f) (log (Fired call) w) c)
      as (w' & Hexec & Hcells & Hfired); [by apply Hquiet|done|].
    exists w'. unfold bind, emit. rewrite Hexec. split_and!; [|done|].
    + by destruct (result_of _ _).
    + by rewrite Hfired, fired_calls_log.
  - exists w. by rewrite app_nil_r.
Qed.

Lemma quiet_handler d state resident messageKey handler (s : STATES) (payload : PAYLOAD) :
  quiet_description d →
  findStateBehavior d state = Some resident →
  handling resident !! messageKey ∪ handling resident !! "_" = Some handler →
  sends_nothing (handler s payload).
Proof.
  intros Hquiet [key Hentry]%findStateBehavior_declared Hhandler.
  destruct (Hquiet key resident Hentry) as [Hhandlers _].
  apply union_Some in Hhandler as [Hnamed|[_ Hwildcard]]; eauto.
Qed.

(** One send, when no user code sends. *)
Lemma send_quiet d this (initialValue : STATES) fuel name payload w c step :
  quiet_description d →
  cells w !! this = Some c →
  (∀ hooks, _hooks c = Some hooks → quiet_hooks hooks) →
  spec_transition d (_value c) name payload = Some step →
  ∃ w',
    send (plain d this initialValue (S fuel)) name payload w = Done () w' ∧
    match step with
    | None =>
        cells w' !! this = Some c ∧
        fired_calls (trace w') = fired_calls (trace w)
    | Some (entry, current) =>
        ∃ resident,
          findStateBehavior d (_value c) = Some resident ∧
          findStateBehavior d current = Some entry ∧
          cells w' !! this =
            Some {| _value := current;
                    _hooks := hooks_after resident entry (_hooks c) current |} ∧
          fired_calls (trace w') =
            fired_calls (trace w) ++
            commit_calls resident entry (_hooks c) (_value c) current
    end.
Proof.
  intros Hquiet Hc Hhooks Hstep. unfold spec_transition in Hstep.
  destruct (obj_get name (messages d)) as [message|] eqn:Hname;
    simpl in Hstep; [|done].
  destruct (findStateBehavior d (_value c)) as [resident|] eqn:Hresident;
    simpl in Hstep; [|done].
  destruct (reverseMessageMap d !! _id message) as [messageKey|] eqn:Hkey;
    simpl in Hstep; [|done].
  pose proof (this_value_at this initialValue w c Hc) as Hvalue.
  cbn [send dispatch]. unfold send_property. rewrite Hname, sendFactory_S.
  unfold send_body. unfold bind at 1, gets. rewrite Hvalue, Hresident, Hkey.
  destruct (handling resident !! messageKey ∪ handling resident !! "_")
    as [handler|] eqn:Hhandler.
  2:{ injection Hstep as <-. eexists. split; [reflexivity|]. split; [done|].
      rewrite !fired_calls_log. by rewrite !app_nil_r. }
  pose proof (quiet_handler d _ _ _ _ (_value c) payload Hquiet Hresident Hhandler)
    as Hsends.
  destruct (exec_quiet_at d this initialValue fuel _ w c Hsends Hc)
    as (w1 & Hexec & Hcells1 & Hfired1).
  unfold bind at 1. rewrite Hexec.
  set (newValue := result_of (handler (_value c) payload) (_value c)) in *.
  destruct (findStateBehavior d newValue) as [entry|] eqn:Hentry; simpl in Hstep; [|done].
  injection Hstep as <-.
  unfold bind at 1, modify. unfold bind at 1.
  assert (cells (set_this_value this newValue w1) !! this =
            Some {| _value := newValue; _hooks := _hooks c |}) as Hc2.
  { apply set_this_value_at. by rewrite Hcells1. }
  rewrite (this_hooks_at _ _ _ Hc2). cbn [_hooks].
  destruct (bool_decide (addr entry = addr resident)) eqn:Hsame.
  - destruct (call_quiet d this initialValue fuel (_hooks c ≫= onUpdate)
                (λ f, f (_value c) newValue) (CallOnUpdate (_value c) newValue)
                (set_this_value this newValue w1) _ Hc2)
      as (w3 & Hcall & Hcells3 & Hfired3).
    { intros f Hf. destruct (_hooks c) as [hooks|]; [|done].
      destruct (Hhooks hooks eq_refl) as [Hupdate _]. by apply Hupdate. }
    exists w3. split; [exact Hcall|]. exists resident.
    unfold commit_calls, hooks_after. rewrite Hsame.
    split_and!; [done|done| |].
    + by rewrite Hcells3.
    + by rewrite Hfired3, <-Hfired1.
  - destruct (call_quiet d this initialValue fuel (_hooks c ≫= onExit)
                (λ f, f (_value c)) (CallOnExit (_value c))
                (set_this_value this newValue w1) _ Hc2)
      as (w3 & Hcall & Hcells3 & Hfired3).
    { intros f Hf. destruct (_hooks c) as [hooks|]; [|done].
      destruct (Hhooks hooks eq_refl) as [_ Hexit]. by apply Hexit. }
    unfold bind at 1. rewrite Hcall.
    assert (cells w3 !! this = Some {| _value := newValue; _hooks := _hooks c |})
      as Hc3 by (by rewrite Hcells3).
    destruct (findStateBehavior_declared d _ _ Hentry) as [key Hdeclared].
    destruct (Hquiet key entry Hdeclared) as [_ Henter].
    destruct (onEnter entry) as [f|] eqn:Hf.
    + destruct (Henter f newValue eq_refl) as [Hsends_f Hhooks_f].
      destruct (exec_quiet_at d this initialValue fuel (f newValue)
                  (log (Fired (CallOnEnter (addr entry) newValue)) w3) _ Hsends_f Hc3)
        as (w4 & Hexec4 & Hcells4 & Hfired4).
      eexists. unfold bind, emit, modify. rewrite Hexec4. split; [reflexivity|].
      exists resident. unfold commit_calls, hooks_after. rewrite Hsame, Hf.
      split_and!; [done|done| |].
      * cbn [_value]. rewrite (set_this_hooks_at _ _ _ _ ltac:(by rewrite Hcells4)).
        done.
      * cbn [trace set_this_hooks with_cells].
        rewrite Hfired4, fired_calls_log, Hfired3. cbn [trace set_this_value with_cells].
        by rewrite Hfired1, <-app_assoc.
    + eexists. unfold modify. split; [reflexivity|].
      exists resident. unfold commit_calls, hooks_after. rewrite Hsame, Hf.
      split_and!; [done|done| |].
      * by rewrite (set_this_hooks_at _ _ _ _ Hc3).
      * cbn [trace set_this_hooks with_cells]. rewrite Hfired3.
        cbn [trace set_this_value with_cells]. by rewrite Hfired1, app_nil_r.
Qed.

(** The hooks of the residency are quiet. *)
Lemma hooks_after_quiet d resident entry hooks (current : STATES) key :
  quiet_description d →
  behaviors d !! key = Some entry →
  (∀ h, hooks = Some h → quiet_hooks h) →
  ∀ h, hooks_after resident entry hooks current = Some h → quiet_hooks h.
Proof.
  intros Hquiet Hentry Hhooks h. unfold hooks_after.
  case_bool_decide; [apply Hhooks|].
  destruct (Hquiet key entry Hentry) as [_ Henter].
  destruct (onEnter entry) as [f|]; [|done].
  destruct (Henter f current eq_refl) as [_ Hreturned].
  destruct (result_of (f current) current) as [h'|] eqn:Hresult; simpl.
  - intros [= <-]. by eapply Hreturned.
  - intros [= <-]. by split.
Qed.

(** A sequence of sends, when no user code sends. *)
Lemma send_each_quiet d this (initialValue : STATES) fuel sent :
  quiet_description d →
  ∀ w c resident commits,
    cells w !! this = Some c →
    (∀ hooks, _hooks c = Some hooks → quiet_hooks hooks) →
    findStateBehavior d (_value c) = Some resident →
    spec_commits d (_value c) sent = Some commits →
    ∃ w' c',
      send_each (plain d this initialValue (S fuel)) sent w = Done () w' ∧
      cells w' !! this = Some c' ∧
      _value c' = last_value (_value c) commits ∧
      fired_calls (trace w') =
        fired_calls (trace w) ++
        residency_calls resident (_hooks c) (_value c) commits.
Proof.
  intros Hquiet. induction sent as [|[name payload] sent IH];
    intros w c resident commits Hc Hhooks Hresident Hcommits.
  - injection Hcommits as <-. exists w, c. by rewrite app_nil_r.
  - cbn [spec_commits] in Hcommits.
    destruct (spec_transition d (_value c) name payload) as [step|] eqn:Hstep; [|done].
    destruct (send_quiet d this initialValue fuel name payload w c step
                Hquiet Hc Hhooks Hstep) as (w1 & Hsend & Hstep1).
    cbn [send_each]. unfold bind. rewrite Hsend.
    destruct step as [[entry current]|].
    + destruct Hstep1 as (resident' & Hresident' & Hentry & Hc1 & Hfired1).
      assert (resident' = resident) as -> by congruence.
      destruct (spec_commits d current sent) as [rest|] eqn:Hrest; [|done].
      injection Hcommits as <-.
      destruct (findStateBehavior_declared d _ _ Hentry) as [key Hdeclared].
      destruct (IH w1 _ entry rest Hc1) as (w' & c' & Hsends & Hc' & Hvalue' & Hfired');
        [by eapply hooks_after_quiet|done|done|].
      exists w', c'. split_and!; [done|done| |].
      * rewrite Hvalue'. cbn [_value]. unfold last_value.
        destruct rest as [|r rest]; [reflexivity|]. rewrite last_cons_cons.
        destruct (last (r :: rest)) eqn:Hlast; [done|]. by apply last_None in Hlast.
      * rewrite Hfired', Hfired1. cbn [_value _hooks residency_calls].
        by rewrite <-app_assoc.
    + destruct Hstep1 as [Hc1 Hfired1].
      destruct (IH w1 c resident commits Hc1 Hhooks Hresident Hcommits)
        as (w' & c' & Hsends & Hc' & Hvalue' & Hfired').
      exists w', c'. split_and!; [done|done|done|]. by rewrite Hfired', Hfired1.
Qed.

(** The construction, when no user code sends. *)
Lemma create_quiet d (initial : INITIAL) fuel w entry :
  quiet_description d →
  findStateBehavior d (factory d initial) = Some entry →
  ∃ instance w',
    create d initial fuel w = Done instance w' ∧
    instance_self instance = plain d (length (cells w)) (factory d initial) ∧
    cells w' !! length (cells w) =
      Some {| _value := factory d initial;
              _hooks := onEnter entry ≫=
                          λ f, result_of (f (factory d initial)) (factory d initial) |} ∧
    fired_calls (trace w') =
      fired_calls (trace w) ++
      call_if (onEnter entry) (CallOnEnter (addr entry) (factory d initial)).
Proof.
  intros Hquiet Hentry. unfold create, FSMInstance_new.
  set (this := length (cells w)). set (initialValue := factory d initial) in *.
  set (w0 := with_cells _ w).
  assert (cells w0 !! this = Some {| _value := initialValue; _hooks := None |}) as Hc0.
  { unfold w0, this. simpl. by rewrite lookup_app_r, Nat.sub_diag by lia. }
  rewrite (this_value_at this initialValue w0 _ Hc0). cbn [_value]. rewrite Hentry.
  destruct (findStateBehavior_declared d _ _ Hentry) as [key Hdeclared].
  destruct (Hquiet key entry Hdeclared) as [_ Henter].
  destruct (onEnter entry) as [f|] eqn:Hf.
  - destruct (Henter f initialValue eq_refl) as [Hsends _].
    destruct (exec_quiet_at d this initialValue fuel (f initialValue)
                (log (Fired (CallOnEnter (addr entry) initialValue)) w0) _ Hsends Hc0)
      as (w1 & Hexec & Hcells1 & Hfired1).
    eexists _, _. unfold bind, emit, modify, ret. rewrite Hexec.
    split_and!; [reflexivity|reflexivity| |].
    + by rewrite (set_this_hooks_at _ _ _ _ ltac:(by rewrite Hcells1)).
    + cbn [trace set_this_hooks with_cells]. by rewrite Hfired1, fired_calls_log.
  - eexists _, _. split_and!; [reflexivity|reflexivity|done|].
    by rewrite app_nil_r.
Qed.

(** When neither a handler nor a lifecycle function sends a message, the
    engine makes the calls that the residency rule asks for, in its
    order: the construction and each send return, whatever the bound on
    nesting, the value is the last one committed, and the calls recorded
    since the construction began are those due for the residency of the
    initial value followed by the commits. *)
Theorem residency_without_nested_sends d (initial : INITIAL) sent fuel w entry commits :
  quiet_description d →
  findStateBehavior d (factory d initial) = Some entry →
  spec_commits d (factory d initial) sent = Some commits →
  ∃ instance w',
    create_send d initial sent (S fuel) w = Done instance w' ∧
    value (instance_self instance fuel) w' = last_value (factory d initial) commits ∧
    fired_calls (trace w') =
      fired_calls (trace w) ++
      residency_from_construction entry (factory d initial) commits.
Proof.
  intros Hquiet Hentry Hcommits.
  destruct (create_quiet d initial (S fuel) w entry Hquiet Hentry)
    as (instance & w1 & Hcreate & Hself & Hc1 & Hfired1).
  destruct (findStateBehavior_declared d _ _ Hentry) as [key Hdeclared].
  destruct (send_each_quiet d (length (cells w)) (factory d initial) fuel sent Hquiet
              w1 _ entry commits Hc1) as (w' & c' & Hsends & Hc' & Hvalue' & Hfired');
    [|done|done|].
  { cbn [_hooks]. destruct (Hquiet key entry Hdeclared) as [_ Henter].
    destruct (onEnter entry) as [f|]; [|done]. simpl. intros hooks Hhooks.
    destruct (Henter f (factory d initial) eq_refl) as [_ Hreturned].
    by eapply Hreturned. }
  exists instance, w'. unfold create_send, bind. rewrite Hcreate, Hself, Hsends.
  split_and!; [done| |].
  - cbn [value dispatch]. by rewrite (this_value_at _ _ _ _ Hc'), Hvalue'.
  - rewrite Hfired', Hfired1. unfold residency_from_construction.
    by rewrite <-app_assoc.
Qed.
End ResidencyFacts.

(** ** The video player *)

Section VideoPlayerFacts.
Import VideoPlayer.

(** The accessors of the instance whose fields are in cell 0. *)
Local Abbreviation player d fuel :=
  (dispatch d (set_this_value 0) (this_value 0 Idle) (set_this_hooks 0) (this_hooks 0) fuel).

(** The machine of the end-to-end example sends no message from its
    handlers, and has no lifecycle function. *)
Lemma videoPlayerDescription_quiet : quiet_description videoPlayerDescription.
Proof.
  intros key entry Hentry. cbn in Hentry.
  apply lookup_insert_Some in Hentry as [[_ <-]|[_ Hentry]];
    [|apply lookup_insert_Some in Hentry as [[_ <-]|[_ Hentry]];
      [|apply lookup_singleton_Some in Hentry as [_ <-]]].
  - split; [|done]. intros name handler state payload Hhandler. cbn in Hhandler.
    apply lookup_singleton_Some in Hhandler as [_ <-]. constructor.
  - split; [|done]. intros name handler state payload Hhandler. cbn in Hhandler.
    apply lookup_singleton_Some in Hhandler as [_ <-]. constructor.
  - split; [|done]. intros name handler state payload Hhandler. cbn in Hhandler.
    apply lookup_insert_Some in Hhandler as [[_ <-]|[_ Hhandler]];
      [|apply lookup_singleton_Some in Hhandler as [_ <-]].
    + destruct payload; constructor.
    + destruct state; constructor.
Qed.

(** C6.  The machine of the end-to-end example, created in any world and
    sent [play, seek(1), seek(2), pause, play]: the construction and the
    five sends return, whatever the bound on nesting, and [value()] is
    then [Playing(0)]. *)
Theorem video_player_end_to_end (fuel : nat) (w : World VideoPlayerState Payload) :
  ∃ w',
    create_send_value videoPlayerDescription () play_seek_seek_pause_play (S fuel) w
    = Done (Playing 0) w'.
Proof.
  edestruct (residency_without_nested_sends videoPlayerDescription ()
               play_seek_seek_pause_play fuel w)
    as (instance & w' & Hrun & Hvalue & _);
    [apply videoPlayerDescription_quiet|vm_compute; reflexivity|vm_compute; reflexivity|].
  exists w'. unfold create_send_value, bind, gets. rewrite Hrun.
  apply create_send_instance in Hrun as [_ Hself]. rewrite Hself in Hvalue |- *.
  f_equal. exact Hvalue.
Qed.

(** The machine of the test 'Second state lifecycle' sends no message
    from its handlers or from its lifecycle functions. *)
Lemma lifecycleDescription_quiet : quiet_description lifecycleDescription.
Proof.
  intros key entry Hentry. cbn in Hentry.
  apply lookup_insert_Some in Hentry as [[_ <-]|[_ Hentry]];
    [|apply lookup_insert_Some in Hentry as [[_ <-]|[_ Hentry]];
      [|apply lookup_singleton_Some in Hentry as [_ <-]]].
  - split; [|done]. intros name handler state payload Hhandler. cbn in Hhandler.
    apply lookup_singleton_Some in Hhandler as [_ <-]. constructor.
  - split; [|done]. intros name handler state payload Hhandler. cbn in Hhandler.
    by rewrite lookup_empty in Hhandler.
  - split.
    + intros name handler state payload Hhandler. cbn in Hhandler.
      apply lookup_insert_Some in Hhandler as [[_ <-]|[_ Hhandler]];
        [|apply lookup_singleton_Some in Hhandler as [_ <-]]; constructor.
    + intros f state [= <-]. split; [repeat constructor|].
      intros current hooks [= <-]. split.
      * intros f previous current' [= <-]. repeat constructor.
      * intros f state' [= <-]. repeat constructor.
Qed.

(** The counts of the test 'Second state lifecycle', in any world and
    with any bound on nesting: [play] enters [playing], the second and the
    third [play] update it, [pause] leaves it. *)
Lemma second_state_lifecycle (fuel : nat) (w : World VideoPlayerState Payload) :
  ∃ instance w',
    create_send lifecycleDescription ()
      [("play", Empty); ("play", Empty); ("play", Empty); ("pause", Empty)]
      (S fuel) w = Done instance w' ∧
    value (instance_self instance fuel) w' = Paused 0 ∧
    fired_calls (trace w') =
      fired_calls (trace w) ++
      [CallOnEnter 2 (Playing 0);
       CallOnUpdate (Playing 0) (Playing 0);
       CallOnUpdate (Playing 0) (Playing 0);
       CallOnExit (Playing 0)].
Proof.
  edestruct (residency_without_nested_sends lifecycleDescription ()
               [("play", Empty); ("play", Empty); ("play", Empty); ("pause", Empty)]
               fuel w)
    as (instance & w' & Hrun & Hvalue & Hfired);
    [apply lifecycleDescription_quiet|vm_compute; reflexivity|vm_compute; reflexivity|].
  exists instance, w'. split_and!; [exact Hrun|exact Hvalue|exact Hfired].
Defined.

(** The same run in the empty world, with the world it ends in. *)
Lemma video_player_from_scratch (fuel : nat) :
  create_send_value videoPlayerDescription () play_seek_seek_pause_play
    (S fuel) empty_world
  = Done (Playing 0) (one_cell (Playing 0)).
Proof.
  rewrite (create_send_value_more_fuel _ _ _ 1 (S fuel)).
  - vm_compute. reflexivity.
  - lia.
  - by vm_compute.
Qed.

(** The run of the next two theorems: [create({})], then [send.play({})],
    on the machine whose [playing.onEnter] sends [pause]. *)
Lemma eager_run (fuel : nat) :
  ∃ instance,
    create_send eagerDescription () [("play", Empty)] (2 + fuel) empty_world
      = Done instance
          {| cells := [{| _value := Paused 0; _hooks := Some playing_hooks |}];
             observers := [];
             trace :=
               [Fired (CallOnEnter 0 Idle);
                Fired (CallOnExit Idle); UserEffect "idle.onExit";
                Fired (CallOnEnter 2 (Playing 0));
                Fired (CallOnExit (Playing 0)); UserEffect "idle.onExit";
                Fired (CallOnEnter 1 (Paused 0))] |} ∧
    this_ instance = 0.
Proof.
  rewrite (create_send_more_fuel eagerDescription () [("play", Empty)] 2 (2 + fuel));
    [|lia|by vm_compute].
  edestruct (returned_in (create_send eagerDescription () [("play", Empty)] 2 empty_world))
    as [instance Hrun]; [by vm_compute|by vm_compute|].
  exists instance. split; [exact Hrun|].
  by apply create_send_instance in Hrun as [-> _].
Qed.

(** C2 (the code departs from the claim).  [playing.onEnter] sends
    [pause] before it returns.  The nested send commits [Paused(0)] and
    installs the hooks of [paused]; when [playing.onEnter] returns, its
    own hooks are stored over them.  After [send.play] has returned the
    value is [Paused(0)] and the hooks are those of [playing]. *)
Theorem nested_send_hooks_overwritten (fuel : nat) :
  ∃ instance w,
    create_send eagerDescription () [("play", Empty)] (2 + fuel) empty_world
      = Done instance w ∧
    value (instance_self instance 0) w = Paused 0 ∧
    this_hooks (this_ instance) w = Some playing_hooks ∧
    this_hooks (this_ instance) w ≠ Some paused_hooks.
Proof.
  destruct (eager_run fuel) as (instance & Hrun & Hthis).
  eexists instance, _. split; [exact Hrun|].
  apply create_send_instance in Hrun as [_ ->]. rewrite Hthis.
  split_and!; [reflexivity|reflexivity|]. by intros [=].
Qed.

(** C3 (the code departs from the claim).  The same run, from the calls
    the engine makes.  The hooks of [idle] are still the current ones
    when the nested send leaves [playing], so [idle]'s [onExit] is
    called a second time, and [playing]'s [onExit], which its [onEnter]
    has yet to return, is not called when the residency in [playing]
    ends. *)
Theorem nested_send_breaks_residency (fuel : nat) :
  ∃ instance w,
    create_send eagerDescription () [("play", Empty)] (2 + fuel) empty_world
      = Done instance w ∧
    trace w =
      [Fired (CallOnEnter 0 Idle);
       Fired (CallOnExit Idle); UserEffect "idle.onExit";
       Fired (CallOnEnter 2 (Playing 0));
       Fired (CallOnExit (Playing 0)); UserEffect "idle.onExit";
       Fired (CallOnEnter 1 (Paused 0))] ∧
    this_hooks (this_ instance) w = Some playing_hooks.
Proof.
  destruct (eager_run fuel) as (instance & Hrun & Hthis).
  eexists instance, _. split; [exact Hrun|]. rewrite Hthis. by split.
Qed.




(** C5, as stated, fails.  The instance is in [idle]; the handler of
    [pause] returns [Paused(0)], which no declared predicate accepts;
    [send.pause] throws; the value of the instance, [Idle] before the
    call, is [Playing(0)] when it throws. *)
Lemma stray_transition_after_nested_send :
  (∃ instance,
     create strayDescription () 0 empty_world = Done instance (one_cell Idle) ∧
     this_ instance = 0) ∧
  exec (player strayDescription 1) (send_then_stray Idle Empty) (one_cell Idle)
    = Done (Paused 0) (one_cell (Playing 0)) ∧
  findStateKey strayDescription (Paused 0) = None ∧
  send (player strayDescription 2) "pause" Empty (one_cell Idle)
    = Threw (Error could_not_find)
        (log (ConsoleError (NoMatchingState (Paused 0) pause Empty))
           (one_cell (Playing 0))) ∧
  this_value 0 Idle (one_cell Idle) = Idle ∧
  this_value 0 Idle
    (log (ConsoleError (NoMatchingState (Paused 0) pause Empty))
       (one_cell (Playing 0))) = Playing 0.
Proof.
  split_and!; try by vm_compute.
  edestruct (returned_in (create strayDescription () 0 empty_world))
    as [instance Hrun]; [by vm_compute|by vm_compute|].
  exists instance. split; [exact Hrun|].
  by apply create_instance in Hrun as [-> _].
Qed.

Lemma unresolved_transition_raises_witness :
  ∃ w',
    sendFactory strayDescription (set_this_value 0) (this_value 0 Idle)
      (set_this_hooks 0) (this_hooks 0) 1 pause Empty (one_cell (Playing 3))
    = Threw (Error could_not_find) w' ∧
    this_value 0 Idle w' = Playing 3 ∧
    this_hooks 0 w' = None ∧
    trace w' = [ConsoleError (NoMatchingState (Paused 3) pause Empty)].
Proof.
  destruct (unresolved_transition_raises strayDescription
              (set_this_value 0) (set_this_hooks 0) 0 Idle 0 pause Empty
              (one_cell (Playing 3))
              {| addr := 1; onEnter := None; handling := {[ "pause" := on_pause ]} |}
              "pause" on_pause (Paused 3) (one_cell (Playing 3)))
    as (w' & Hsend & Hw' & _ & _ & Hpure); [reflexivity..|].
  exists w'. split; [exact Hsend|].
  destruct Hpure as (Hvalue & Hhooks & _); [constructor|].
  split_and!; [exact Hvalue|exact Hhooks|by rewrite Hw'].
Defined.

Lemma unresolved_initial_value_witness :
  ∃ instance,
    create strayInitialDescription () 0 empty_world
      = Done instance (one_cell (Paused 0)) ∧
    send (instance_self instance 1) "play" Empty (one_cell (Paused 0))
      = Threw (Error could_not_find)
          (log (ConsoleError (NoMatchingState (Paused 0) play Empty))
             (one_cell (Paused 0))).
Proof.
  destruct (unresolved_initial_value strayInitialDescription () 0 empty_world)
    as (instance & w' & Hcreate & _ & Hcells & Hobservers & Htrace & _ & _ & Hsend);
    [reflexivity|].
  assert (w' = one_cell (Paused 0)) as ->.
  { destruct w'; simpl in *. by rewrite Hcells, Hobservers, Htrace. }
  exists instance. split; [exact Hcreate|].
  apply (Hsend 0 "play" play Empty). reflexivity.
Defined.

(** Two players as in the test 'State as observable': the initial value
    of each is delivered to its own subject, and [play] sent to the
    second is delivered to the second's subject only. *)
Lemma observable_isolation_witness :
  ∃ first second,
    create_observable observablePlayer () 1 empty_world
      = Done first (observed_world 1 []) ∧
    create_observable observablePlayer () 1 (observed_world 1 [])
      = Done second (observed_world 2 []) ∧
    observer_ first ≠ observer_ second ∧
    send (instance_self (instance second) 1) "play" Empty (observed_world 2 [])
      = Done ()
          {| cells := [{| _value := Idle; _hooks := None |};
                       {| _value := Playing 0; _hooks := None |}];
             observers := observers (observed_world 2 []);
             trace := trace (observed_world 2 []) ++
                      [Delivered 1 0 "subject.next" (Playing 0)] |} ∧
    Forall (λ e : Event VideoPlayerState Payload,
              ∀ c l t, e ≠ Delivered (observer_ first) c l t)
      [Delivered 1 0 "subject.next" (Playing 0)].
Proof.
  edestruct (returned_in (create_observable observablePlayer () 1 empty_world))
    as [first Hfirst]; [by vm_compute|by vm_compute|].
  edestruct (returned_in
               (create_observable observablePlayer () 1 (observed_world 1 [])))
    as [second Hsecond]; [by vm_compute|by vm_compute|].
  destruct (observable_isolation observablePlayer () () 1 1 empty_world
              first _ _ second _ Hfirst (le_n _) Hsecond)
    as (Hne & _ & Hsends & _).
  assert (send (instance_self (instance second) 1) "play" Empty (observed_world 2 [])
          = Done ()
              {| cells := [{| _value := Idle; _hooks := None |};
                           {| _value := Playing 0; _hooks := None |}];
                 observers := observers (observed_world 2 []);
                 trace := trace (observed_world 2 []) ++
                          [Delivered 1 0 "subject.next" (Playing 0)] |}) as Hsend.
  { pose proof Hsecond as (_ & _ & -> & _)%create_observable_instance.
    by vm_compute. }
  exists first, second.
  split_and!; [exact Hfirst|exact Hsecond|exact Hne|exact Hsend|].
  pose proof (Hsends 1 "play" Empty (observed_world 2 [])) as Hquiet.
  cbv zeta in Hquiet. rewrite Hsend in Hquiet.
  destruct Hquiet as (_ & emitted & Htrace & Hquiet).
  cbn [trace world_of] in Htrace. apply app_inv_head in Htrace as <-. exact Hquiet.
Defined.
End VideoPlayerFacts.


(** * Further properties *)

(** ** The message registry, both ways *)

Section RegistryFacts.
Context {STATES PAYLOAD INITIAL : Type}.
Implicit Types (d : FSMDescription STATES PAYLOAD INITIAL).

(** The loop that fills [reverseMessageMap], from any table on. *)
Lemma reverse_fold_lookup (ms : list (string * FSMMessage))
    (acc : gmap MessageId string) (i : MessageId) :
  foldl (λ acc nm, <[_id nm.2 := nm.1]> acc) acc ms !! i =
    match last (filter (λ nm, _id nm.2 = i) ms) with
    | Some nm => Some nm.1
    | None => acc !! i
    end.
Proof.
  revert acc. induction ms as [|[n m] ms IH]; intros acc; simpl; [done|].
  rewrite IH. destruct (decide (_id m = i)) as [Hi|Hi].
  - rewrite filter_cons_True by done.
    destruct (filter _ ms) as [|nm' rest] eqn:Hrest.
    + simpl. by rewrite <-Hi, lookup_insert_eq.
    + rewrite last_cons_cons. destruct (last (nm' :: rest)) eqn:Hlast; [done|].
      by apply last_None in Hlast.
  - rewrite filter_cons_False by done.
    destruct (last _); [done|]. by rewrite lookup_insert_ne.
Qed.

Lemma last_filter_Some {A} (P : A → Prop) `{!∀ x, Decision (P x)} (l : list A) (x : A) :
  last (filter P l) = Some x ↔
  ∃ earlier rest, l = earlier ++ x :: rest ∧ P x ∧ Forall (λ y, ¬ P y) rest.
Proof.
  induction l as [|a l IH]; simpl.
  - split; [done|]. intros (earlier & rest & Heq & _). by destruct earlier.
  - destruct (decide (P a)) as [Ha|Ha].
    + rewrite filter_cons_True by done.
      destruct (filter P l) as [|b bs] eqn:Hfilter.
      * simpl. split.
        -- intros [= ->]. exists [], l. split_and!; [done|done|].
           apply Forall_forall. intros y Hy Py.
           assert (y ∈ filter P l) as Hin by (by apply list_elem_of_filter).
           rewrite Hfilter in Hin. by apply elem_of_nil in Hin.
        -- intros (earlier & rest & Heq & Px & Hrest).
           destruct earlier as [|a' earlier]; simpl in Heq.
           ++ by injection Heq as ->.
           ++ injection Heq as -> ->.
              assert (x ∈ filter P (earlier ++ x :: rest)) as Hin.
              { apply list_elem_of_filter. split; [done|].
                apply elem_of_app. right. apply elem_of_cons. by left. }
              rewrite Hfilter in Hin. by apply elem_of_nil in Hin.
      * rewrite last_cons_cons, IH. split.
        -- intros (earlier & rest & -> & Px & Hrest). by exists (a :: earlier), rest.
        -- intros (earlier & rest & Heq & Px & Hrest).
           destruct earlier as [|a' earlier]; simpl in Heq.
           ++ injection Heq as -> ->.
              assert (b ∈ filter P rest) as Hin.
              { rewrite Hfilter. apply elem_of_cons. by left. }
              apply list_elem_of_filter in Hin as [Pb Hb].
              rewrite Forall_forall in Hrest. by destruct (Hrest b).
           ++ injection Heq as -> ->. by exists earlier, rest.
    + rewrite filter_cons_False by done. rewrite IH. split.
      * intros (earlier & rest & -> & Px & Hrest). by exists (a :: earlier), rest.
      * intros (earlier & rest & Heq & Px & Hrest).
        destruct earlier as [|a' earlier]; simpl in Heq.
        -- by injection Heq as ->.
        -- injection Heq as -> ->. by exists earlier, rest.
Qed.

Lemma reverseMessageMap_Some d (i : MessageId) (name : string) :
  reverseMessageMap d !! i = Some name ↔
  ∃ earlier m rest,
    messages d = earlier ++ (name, m) :: rest ∧
    _id m = i ∧
    Forall (λ nm, _id nm.2 ≠ i) rest.
Proof.
  unfold reverseMessageMap. rewrite reverse_fold_lookup, lookup_empty.
  set (P := λ nm : string * FSMMessage, _id nm.2 = i).
  assert (∀ n m, last (filter P (messages d)) = Some (n, m) ↔
                 ∃ earlier rest, messages d = earlier ++ (n, m) :: rest ∧
                                 _id m = i ∧ Forall (λ nm, _id nm.2 ≠ i) rest) as Hlast.
  { intros n m. apply (last_filter_Some P). }
  destruct (last (filter P (messages d))) as [[n m]|].
  - split.
    + intros [= <-]. destruct (proj1 (Hlast n m) eq_refl) as (earlier & rest & Hfound).
      by exists earlier, m, rest.
    + intros (earlier & m' & rest & Hsplit).
      assert (Some (n, m) = Some (name, m')) as [= -> _]; [|done].
      apply Hlast. by exists earlier, rest.
  - split; [done|]. intros (earlier & m & rest & Hsplit).
    assert (None = Some (name, m)) as Hnone; [|done].
    apply Hlast. by exists earlier, rest.
Qed.

Lemma reverseMessageMap_None d (i : MessageId) :
  reverseMessageMap d !! i = None ↔ Forall (λ nm, _id nm.2 ≠ i) (messages d).
Proof.
  unfold reverseMessageMap. rewrite reverse_fold_lookup, lookup_empty.
  destruct (last _) as [nm|] eqn:Hlast.
  - split; [done|]. intros Hall.
    apply last_filter_Some in Hlast as (earlier & rest & Heq & Hid & _).
    rewrite Heq in Hall. apply Forall_app in Hall as [_ Hall].
    by apply Forall_cons_1 in Hall as [? _].
  - split; [|done]. intros _.
    apply last_None in Hlast. apply Forall_forall. intros nm Hin Hid.
    assert (nm ∈ filter (λ nm : string * FSMMessage, _id nm.2 = i) (messages d)) as Hnm
      by (by apply list_elem_of_filter).
    rewrite Hlast in Hnm. by apply elem_of_nil in Hnm.
Qed.

(** X1.  [reverseMessageMap] maps an identifier to the name under which
    the loop saw it last: the last name, in the enumeration order of
    [messages], whose descriptor carries the identifier; an identifier
    that no declared descriptor carries has no entry. *)
Theorem reverseMessageMap_last_wins d (i : MessageId) :
  (∀ name,
     reverseMessageMap d !! i = Some name ↔
     ∃ earlier m rest,
       messages d = earlier ++ (name, m) :: rest ∧
       _id m = i ∧
       Forall (λ nm, _id nm.2 ≠ i) rest) ∧
  (reverseMessageMap d !! i = None ↔ Forall (λ nm, _id nm.2 ≠ i) (messages d)).
Proof. split; [intros name; apply reverseMessageMap_Some|apply reverseMessageMap_None]. Qed.

Lemma obj_get_elem_of {K A} `{EqDecision K} (key : K) (obj : list (K * A)) (a : A) :
  obj_get key obj = Some a → (key, a) ∈ obj.
Proof.
  induction obj as [|[k b] obj IH]; simpl; [done|].
  case_decide as Hk.
  - intros [= ->]. subst. apply elem_of_cons. by left.
  - intros Hget. apply elem_of_cons. right. by apply IH.
Qed.

Lemma fmap_NoDup_eq {A B} (f : A → B) (l : list A) (x y : A) :
  NoDup (f <$> l) → x ∈ l → y ∈ l → f x = f y → x = y.
Proof.
  intros Hnodup [i Hi]%list_elem_of_lookup [j Hj]%list_elem_of_lookup Hxy.
  assert (i = j) as ->.
  { apply (NoDup_lookup (f <$> l) i j (f x)); [done| |].
    - by rewrite list_lookup_fmap, Hi.
    - by rewrite list_lookup_fmap, Hj, Hxy. }
  congruence.
Qed.

(** A declared name always finds a name back. *)
Lemma declared_message_key d name m :
  obj_get name (messages d) = Some m →
  ∃ key, reverseMessageMap d !! _id m = Some key.
Proof.
  intros Hin%obj_get_elem_of.
  destruct (reverseMessageMap d !! _id m) as [key|] eqn:Hkey; [by exists key|].
  apply reverseMessageMap_None in Hkey. rewrite Forall_forall in Hkey.
  by destruct (Hkey _ Hin).
Qed.

(** X2.  [send.<name>] hands the descriptor declared under [name] to
    [sendFactory], which looks its identifier up in [reverseMessageMap].
    The lookup always finds a declared name whose descriptor carries the
    same identifier; when no two declared descriptors carry the same
    identifier, it finds [name] itself. *)
Theorem declared_name_round_trip d name m :
  obj_get name (messages d) = Some m →
  (∃ key m',
     reverseMessageMap d !! _id m = Some key ∧
     (key, m') ∈ messages d ∧ _id m' = _id m) ∧
  (NoDup ((λ nm, _id nm.2) <$> messages d) →
   reverseMessageMap d !! _id m = Some name).
Proof.
  intros Hget. destruct (declared_message_key d name m Hget) as [key Hkey].
  pose proof Hkey as (earlier & m' & rest & Hsplit & Hid & _)%reverseMessageMap_Some.
  assert ((key, m') ∈ messages d) as Hin'.
  { rewrite Hsplit. apply elem_of_app. right. apply elem_of_cons. by left. }
  split; [by exists key, m'|].
  intros Hnodup. rewrite Hkey. f_equal.
  assert ((key, m') = (name, m)) as [= -> _]; [|done].
  apply (fmap_NoDup_eq (λ nm : string * FSMMessage, _id nm.2) (messages d)); try done.
  by apply obj_get_elem_of.
Qed.
End RegistryFacts.

Lemma declared_name_round_trip_witness :
  reverseMessageMap VideoPlayer.videoPlayerDescription !! _id VideoPlayer.seek
    = Some "seek".
Proof.
  destruct (declared_name_round_trip VideoPlayer.videoPlayerDescription
              "seek" VideoPlayer.seek) as [_ Hname]; [reflexivity|].
  apply Hname. apply (bool_decide_unpack _). by vm_compute.
Defined.

(** ** Invariants of a send *)

Section Committed.
Context {STATES PAYLOAD INITIAL : Type}.
Implicit Types (w : World STATES PAYLOAD) (self : Self STATES PAYLOAD).
Implicit Types (e : Event STATES PAYLOAD) (fuel : nat).
Variable R : relation (World STATES PAYLOAD).
Context `{!PreOrder R}.

Lemma exec_respects_effects {A} self (p : Prog STATES PAYLOAD A) :
  (∀ label w, R w (log (UserEffect label) w)) →
  (∀ name payload, respects R (send self name payload)) →
  respects R (exec self p).
Proof.
  intros Heffect Hsend. induction p as [r|k IH|name payload k IH|label k IH]; simpl.
  - apply (respects_ret R).
  - intros w. apply IH.
  - apply (respects_bind R); [apply Hsend|done].
  - apply (respects_bind R); [|done]. intros w. apply Heffect.
Qed.

Variable d : FSMDescription STATES PAYLOAD INITIAL.
Variable stateSet : STATES → World STATES PAYLOAD → World STATES PAYLOAD.
Variable stateGet : World STATES PAYLOAD → STATES.
Variable hookSet : option (Hooks STATES PAYLOAD) → World STATES PAYLOAD → World STATES PAYLOAD.
Variable hookGet : World STATES PAYLOAD → option (Hooks STATES PAYLOAD).

(** What the engine logs, the error line for an undeclared descriptor
    apart. *)
Hypothesis R_log :
  ∀ e w, (∀ o c l t, e ≠ Delivered o c l t) → is_no_matching_message e = false →
         R w (log e w).
(** The state setter, on a value that resolves to an entry. *)
Hypothesis R_stateSet :
  ∀ state w, is_Some (findStateBehavior d state) → R w (stateSet state w).
Hypothesis R_hookSet : ∀ hooks w, R w (hookSet hooks w).

Lemma emit_committed e :
  (∀ o c l t, e ≠ Delivered o c l t) → is_no_matching_message e = false →
  respects R (emit e).
Proof. intros He1 He2 w. by apply R_log. Qed.

Lemma send_body_committed self message payload :
  is_Some (reverseMessageMap d !! _id message) →
  (∀ name payload, respects R (send self name payload)) →
  respects R (send_body d stateSet stateGet hookSet hookGet self message payload).
Proof.
  intros [messageKey Hkey] Hsend. unfold send_body. rewrite Hkey.
  assert (∀ A (p : Prog STATES PAYLOAD A), respects R (exec self p)) as Hexec.
  { intros A p. apply exec_respects_effects; [|done].
    intros label w. by apply R_log. }
  apply (respects_bind R); [apply (respects_gets R)|]. intros state.
  repeat first
    [ apply (respects_ret R)
    | apply (respects_throw R)
    | apply (respects_gets R)
    | by apply emit_committed
    | apply Hexec
    | by apply (respects_modify R)
    | apply (respects_modify R); intros w; apply R_stateSet; by eexists
    | apply (respects_bind R); [|intros ?]
    | case_match ].
Qed.

Lemma sendFactory_committed fuel message payload :
  is_Some (reverseMessageMap d !! _id message) →
  respects R (sendFactory d stateSet stateGet hookSet hookGet fuel message payload).
Proof.
  revert message payload. induction fuel as [|fuel IH]; intros message payload Hkey.
  - intros w. reflexivity.
  - simpl. apply send_body_committed; [done|]. intros name payload'; simpl.
    unfold send_property. destruct (obj_get name (messages d)) as [m|] eqn:Hname.
    + apply IH. by eapply declared_message_key.
    + apply (respects_throw R).
Qed.

Lemma dispatch_committed fuel name payload :
  respects R (send (dispatch d stateSet stateGet hookSet hookGet fuel) name payload).
Proof.
  simpl. unfold send_property. destruct (obj_get name (messages d)) as [m|] eqn:Hname.
  - apply sendFactory_committed. by eapply declared_message_key.
  - apply (respects_throw R).
Qed.
End Committed.

(** ** Instances *)

Section InstanceFacts.
Context {STATES PAYLOAD INITIAL : Type}.
Implicit Types (d : FSMDescription STATES PAYLOAD INITIAL).
Implicit Types (w : World STATES PAYLOAD) (self : Self STATES PAYLOAD).
Implicit Types (e : Event STATES PAYLOAD) (fuel this : nat).

#[local] Instance logged_only_preorder (P : Event STATES PAYLOAD → Prop) :
  PreOrder (logged_only P).
Proof.
  split.
  - intros w. exists []. by rewrite app_nil_r.
  - intros w1 w2 w3 (em12 & Ht12 & H12) (em23 & Ht23 & H23).
    exists (em12 ++ em23). split; [by rewrite Ht23, Ht12, <-app_assoc|].
    by apply Forall_app.
Qed.

Lemma logged_only_log (P : Event STATES PAYLOAD → Prop) e w :
  P e → logged_only P w (log e w).
Proof. intros He. exists [e]. split; [done|]. by repeat constructor. Qed.

Lemma logged_only_with_cells (P : Event STATES PAYLOAD → Prop) f w :
  logged_only P w (with_cells f w).
Proof. exists []. by rewrite app_nil_r. Qed.

#[local] Instance own_cell_only_preorder this :
  PreOrder (own_cell_only (STATES:=STATES) (PAYLOAD:=PAYLOAD) this).
Proof.
  split.
  - by intros w.
  - intros w1 w2 w3 (Hl12 & Hc12 & Ho12) (Hl23 & Hc23 & Ho23).
    split_and!; [congruence| |congruence].
    intros i Hi. by rewrite Hc23, Hc12.
Qed.

Lemma own_cell_only_log this e w : own_cell_only this w (log e w).
Proof. done. Qed.

Lemma own_cell_only_alter this (f : Cell STATES PAYLOAD → Cell STATES PAYLOAD) w :
  own_cell_only this w (with_cells (alter f this) w).
Proof.
  split_and!; [simpl; by rewrite length_alter| |done].
  intros i Hi. simpl. by rewrite list_lookup_alter_ne.
Qed.

(** The constructor, after it has stored [initialValue]. *)
Lemma FSMInstance_new_allocated (R : relation (World STATES PAYLOAD)) `{!PreOrder R}
    (initialValue : STATES) (dispatch : Dispatch STATES PAYLOAD)
    findStateBehavior fuel w :
  let this := length (cells w) in
  (∀ e w, is_user_code e = true → R w (log e w)) →
  (∀ hooks w, R w (set_this_hooks this hooks w)) →
  (∀ name payload,
     respects R (send (dispatch (set_this_value this) (this_value this initialValue)
                         (set_this_hooks this) (this_hooks this) fuel) name payload)) →
  R (with_cells (λ cs, cs ++ [{| _value := initialValue; _hooks := None |}]) w)
    (world_of (FSMInstance_new initialValue dispatch findStateBehavior fuel w)).
Proof.
  intros this Hlog Hhooks Hsend. unfold FSMInstance_new. fold this.
  destruct (findStateBehavior _) as [initialBehavior|]; [|reflexivity].
  destruct (onEnter initialBehavior) as [f|]; [|reflexivity].
  refine (respects_bind R _ _ _ _ _).
  { intros w1. by apply Hlog. }
  intros _. apply (respects_bind R).
  { apply (exec_respects_effects R); [|done]. intros label w1. by apply Hlog. }
  intros hooks. apply (respects_bind R); [|intros _; apply (respects_ret R)].
  by apply (respects_modify R).
Qed.

Lemma dispatch_declared_only d this (initialValue : STATES) fuel name payload :
  respects (logged_only (λ e, is_no_matching_message e = false))
    (send (dispatch d (set_this_value this) (this_value this initialValue)
             (set_this_hooks this) (this_hooks this) fuel) name payload).
Proof.
  apply (dispatch_committed (logged_only (λ e, is_no_matching_message e = false))).
  - intros e w _ He. by apply logged_only_log.
  - intros state w _. apply logged_only_with_cells.
  - intros hooks w. apply logged_only_with_cells.
Qed.

(** X3.  Neither the construction of an instance nor a send made
    through [instance.send] or [self.send], whatever user code runs in
    it and however deeply its sends are nested, writes the error line
    'No matching message': the descriptor that [send.<name>] passes to
    [sendFactory] comes from [messages], from which [reverseMessageMap]
    was filled. *)
Theorem no_matching_message_unreachable d initial fuel0 w0 inst w1 :
  create d initial fuel0 w0 = Done inst w1 →
  logged_only (λ e, is_no_matching_message e = false) w0 w1 ∧
  ∀ fuel name payload w,
    logged_only (λ e, is_no_matching_message e = false) w
      (world_of (send (instance_self inst fuel) name payload w)).
Proof.
  intros Hcreate. pose proof Hcreate as [_ ->]%create_instance. split.
  - pose proof (FSMInstance_new_allocated
                  (logged_only (λ e, is_no_matching_message e = false))
                  (factory d initial) (dispatch d) (findStateBehavior d) fuel0 w0) as Hnew.
    unfold create in Hcreate. simpl in Hnew. rewrite Hcreate in Hnew.
    etransitivity; [apply logged_only_with_cells|]. apply Hnew.
    + intros e w He. apply logged_only_log. by destruct e.
    + intros hooks w. apply logged_only_with_cells.
    + intros name payload. apply dispatch_declared_only.
  - intros fuel name payload w. apply dispatch_declared_only.
Qed.

(** X4.  A send on an instance, whatever user code runs in it and
    however it ends, creates no instance, changes no field of another
    instance and changes no observer. *)
Theorem send_changes_own_cell_only d initial fuel0 w0 inst w1 fuel name payload w :
  create d initial fuel0 w0 = Done inst w1 →
  let w' := world_of (send (instance_self inst fuel) name payload w) in
  length (cells w') = length (cells w) ∧
  (∀ i, i ≠ this_ inst → cells w' !! i = cells w !! i) ∧
  observers w' = observers w.
Proof.
  intros [-> ->]%create_instance.
  apply (dispatch_respects (own_cell_only (length (cells w0)))).
  - intros e w2 _. apply own_cell_only_log.
  - intros state w2. apply own_cell_only_alter.
  - intros hooks w2. apply own_cell_only_alter.
Qed.

(** X5.  [create], however it ends, allocates one instance and leaves
    the instances and the observers that exist as they are, also when
    the initial [onEnter] sends messages. *)
Theorem create_allocates_one_cell d initial fuel w :
  let w' := world_of (create d initial fuel w) in
  length (cells w') = S (length (cells w)) ∧
  (∀ i, i < length (cells w) → cells w' !! i = cells w !! i) ∧
  observers w' = observers w.
Proof.
  intros w'. unfold w', create.
  destruct (FSMInstance_new_allocated (own_cell_only (length (cells w)))
              (factory d initial) (dispatch d) (findStateBehavior d) fuel w)
    as (Hlen & Hcells & Hobs).
  - intros e w2 _. apply own_cell_only_log.
  - intros hooks w2. apply own_cell_only_alter.
  - intros name payload.
    apply (dispatch_respects (own_cell_only (length (cells w)))).
    + intros e w2 _. apply own_cell_only_log.
    + intros state w2. apply own_cell_only_alter.
    + intros hooks w2. apply own_cell_only_alter.
  - split_and!.
    + rewrite Hlen. simpl. rewrite length_app. simpl. lia.
    + intros i Hi. rewrite Hcells by lia. simpl. by rewrite lookup_app_l.
    + by rewrite Hobs.
Qed.

#[local] Instance stays_declared_preorder d this (initialValue : STATES) :
  PreOrder (stays_declared d this initialValue).
Proof.
  split; [intros w Hw; exact Hw|].
  intros w1 w2 w3 H12 H23 H1. apply H23, H12, H1.
Qed.

Lemma this_value_set_this_hooks this (initialValue : STATES) hooks w :
  this_value this initialValue (set_this_hooks this hooks w)
  = this_value this initialValue w.
Proof.
  unfold this_value, set_this_hooks. simpl.
  rewrite list_lookup_alter_eq. by destruct (cells w !! this).
Qed.

Lemma this_value_set_this_value this (initialValue state : STATES) w :
  this_value this initialValue (set_this_value this state w)
  = match cells w !! this with Some _ => state | None => initialValue end.
Proof.
  unfold this_value, set_this_value. simpl.
  rewrite list_lookup_alter_eq. by destruct (cells w !! this).
Qed.

Lemma dispatch_stays_declared d this (initialValue : STATES) fuel name payload :
  is_Some (findStateBehavior d initialValue) →
  respects (stays_declared d this initialValue)
    (send (dispatch d (set_this_value this) (this_value this initialValue)
             (set_this_hooks this) (this_hooks this) fuel) name payload).
Proof.
  intros Hinitial. apply (dispatch_committed (stays_declared d this initialValue)).
  - intros e w _ _ Hw. exact Hw.
  - intros state w Hstate Hw. rewrite this_value_set_this_value.
    unfold this_value in Hw. by destruct (cells w !! this).
  - intros hooks w. unfold stays_declared. by rewrite this_value_set_this_hooks.
Qed.

End InstanceFacts.

(** ** What a send throws *)

Section Thrown.
Context {STATES PAYLOAD INITIAL : Type}.
Implicit Types (w : World STATES PAYLOAD) (self : Self STATES PAYLOAD).
Variable d : FSMDescription STATES PAYLOAD INITIAL.

Lemma throws_bind {A B} (m : M STATES PAYLOAD A) (f : A → M STATES PAYLOAD B) :
  throws_engine_errors d m → (∀ a, throws_engine_errors d (f a)) →
  throws_engine_errors d (bind m f).
Proof.
  intros Hm Hf w x w'. unfold bind.
  destruct (m w) as [a w1|x1 w1|w1] eqn:Hmw; [apply Hf| |done].
  intros [= <- <-]. by eapply Hm.
Qed.

Lemma throws_ret {A} (a : A) : throws_engine_errors d (ret a).
Proof. by intros w x w'. Qed.
Lemma throws_gets {A} (f : World STATES PAYLOAD → A) : throws_engine_errors d (gets f).
Proof. by intros w x w'. Qed.
Lemma throws_modify f : throws_engine_errors d (modify f).
Proof. by intros w x w'. Qed.
Lemma throws_emit e : throws_engine_errors d (emit e).
Proof. by intros w x w'. Qed.

Lemma throws_no_matching_state (state : STATES) message (payload : PAYLOAD) :
  throws_engine_errors d
    (bind (emit (ConsoleError (NoMatchingState state message payload)))
       (λ _, throw (A:=unit) (Error could_not_find))).
Proof.
  intros w x w' [= <- <-]. left. split; [done|].
  exists state, message, payload. simpl. by rewrite last_snoc.
Qed.

Lemma throws_exec {A} self (p : Prog STATES PAYLOAD A) :
  (∀ name payload, throws_engine_errors d (send self name payload)) →
  throws_engine_errors d (exec self p).
Proof.
  intros Hsend. induction p as [r|k IH|name payload k IH|label k IH]; simpl.
  - apply throws_ret.
  - intros w. apply IH.
  - by apply throws_bind.
  - apply throws_bind; [apply throws_emit|done].
Qed.

Variable stateSet : STATES → World STATES PAYLOAD → World STATES PAYLOAD.
Variable stateGet : World STATES PAYLOAD → STATES.
Variable hookSet : option (Hooks STATES PAYLOAD) → World STATES PAYLOAD → World STATES PAYLOAD.
Variable hookGet : World STATES PAYLOAD → option (Hooks STATES PAYLOAD).

Lemma throws_send_body self message payload :
  is_Some (reverseMessageMap d !! _id message) →
  (∀ name payload, throws_engine_errors d (send self name payload)) →
  throws_engine_errors d
    (send_body d stateSet stateGet hookSet hookGet self message payload).
Proof.
  intros [messageKey Hkey] Hsend. unfold send_body. rewrite Hkey.
  apply throws_bind; [apply throws_gets|]. intros state.
  repeat first
    [ apply throws_ret
    | apply throws_gets
    | apply throws_modify
    | apply throws_emit
    | apply throws_no_matching_state
    | by apply throws_exec
    | apply throws_bind; [|intros ?]
    | case_match ].
Qed.

Lemma throws_send_property (f : FSMMessage → PAYLOAD → M STATES PAYLOAD unit)
    name payload :
  (∀ message payload,
     is_Some (reverseMessageMap d !! _id message) →
     throws_engine_errors d (f message payload)) →
  throws_engine_errors d (send_property d f name payload).
Proof.
  intros Hf. unfold send_property.
  destruct (obj_get name (messages d)) as [m|] eqn:Hname.
  - apply Hf. by eapply declared_message_key.
  - intros w x w' [= <- <-]. right. by exists name.
Qed.

Lemma throws_sendFactory (fuel : nat) message payload :
  is_Some (reverseMessageMap d !! _id message) →
  throws_engine_errors d
    (sendFactory d stateSet stateGet hookSet hookGet fuel message payload).
Proof.
  revert message payload. induction fuel as [|fuel IH]; intros message payload Hkey.
  - by intros w x w'.
  - simpl. apply throws_send_body; [done|]. intros name payload'; simpl.
    by apply throws_send_property.
Qed.

End Thrown.

(** ** Observers *)

(** *** Objects *)
Section ObjectFacts.
Context {K : Type} `{EqDecision K} {A : Type}.
Implicit Types (obj : list (K * A)).

Lemma obj_set_fresh key (a : A) obj :
  key ∉ obj_keys obj → obj_set key a obj = obj ++ [(key, a)].
Proof.
  unfold obj_keys. induction obj as [|[k b] obj IH]; simpl; [done|].
  intros Hfresh. apply not_elem_of_cons in Hfresh as [Hne Hfresh].
  rewrite decide_False by done. by rewrite IH.
Qed.

Lemma obj_keys_delete key obj :
  obj_keys (obj_delete key obj) = filter (λ k, k ≠ key) (obj_keys obj).
Proof.
  unfold obj_keys, obj_delete. induction obj as [|[k b] obj IH]; [done|].
  rewrite fmap_cons. simpl fst. destruct (decide (k = key)) as [->|Hne].
  - rewrite !filter_cons_False by (simpl; auto). exact IH.
  - rewrite !filter_cons_True by done. rewrite fmap_cons. by rewrite IH.
Qed.

Lemma obj_delete_fresh key obj :
  key ∉ obj_keys obj → obj_delete key obj = obj.
Proof.
  unfold obj_keys, obj_delete. induction obj as [|[k b] obj IH]; [done|].
  rewrite fmap_cons. intros [Hne Hfresh]%not_elem_of_cons.
  rewrite filter_cons_True by (simpl; auto). by rewrite IH.
Qed.

Lemma obj_delete_app key obj1 obj2 :
  obj_delete key (obj1 ++ obj2) = obj_delete key obj1 ++ obj_delete key obj2.
Proof. apply filter_app. Qed.

Lemma obj_delete_delete key obj :
  obj_delete key (obj_delete key obj) = obj_delete key obj.
Proof.
  unfold obj_delete. induction obj as [|[k b] obj IH]; [done|].
  destruct (decide (k = key)) as [->|Hne].
  - by rewrite !filter_cons_False by (simpl; auto).
  - rewrite !filter_cons_True by done. by rewrite IH.
Qed.

Lemma obj_delete_set_fresh key (a : A) obj :
  key ∉ obj_keys obj → obj_delete key (obj_set key a obj) = obj.
Proof.
  intros Hfresh. rewrite obj_set_fresh, obj_delete_app, obj_delete_fresh by done.
  unfold obj_delete. rewrite filter_cons_False by (simpl; auto). apply app_nil_r.
Qed.
End ObjectFacts.

(** *** Identifiers of followers *)

Lemma ascending_bounds low keys bound :
  ascending low keys bound → (low ≤ bound)%nat ∧ Forall (λ k, (low ≤ k < bound)%nat) keys.
Proof.
  revert low. induction keys as [|k keys IH]; intros low; simpl; [by split|].
  intros [Hlow [Hbound Hkeys]%IH]. split; [lia|]. constructor; [lia|].
  eapply Forall_impl; [exact Hkeys|]. simpl. lia.
Qed.

Lemma ascending_weaken low low' keys bound :
  (low' ≤ low)%nat → ascending low keys bound → ascending low' keys bound.
Proof. destruct keys; simpl; [lia|]. intros ? [? ?]. split; [lia|done]. Qed.

Lemma ascending_snoc low keys bound :
  ascending low keys bound → ascending low (keys ++ [bound]) (S bound).
Proof.
  revert low. induction keys as [|k keys IH]; intros low; simpl; [lia|].
  intros [? ?]. split; [done|]. by apply IH.
Qed.

Lemma ascending_more low keys bound :
  ascending low keys bound → ascending low keys (S bound).
Proof.
  revert low. induction keys as [|k keys IH]; intros low; simpl; [lia|].
  intros [? ?]. split; [done|]. by apply IH.
Qed.

Lemma ascending_filter (P : nat → Prop) `{!∀ k, Decision (P k)} low keys bound :
  ascending low keys bound → ascending low (filter P keys) bound.
Proof.
  revert low. induction keys as [|k keys IH]; intros low; [done|].
  intros [Hlow Hkeys]. destruct (decide (P k)).
  - rewrite filter_cons_True by done. split; [done|]. by apply IH.
  - rewrite filter_cons_False by done.
    apply (ascending_weaken (S k)); [lia|]. by apply IH.
Qed.

Lemma ids_in_order_fresh o : ids_in_order o → cbId o ∉ obj_keys (followers o).
Proof.
  intros [_ Hkeys]%ascending_bounds Hin.
  rewrite Forall_forall in Hkeys. apply Hkeys in Hin. lia.
Qed.

Lemma ids_in_order_onValue (callback : Listener) o :
  ids_in_order o →
  ids_in_order {| followers := obj_set (cbId o) callback (followers o);
                  cbId := S (cbId o) |}.
Proof.
  intros Ho. unfold ids_in_order. simpl.
  rewrite obj_set_fresh by (by apply ids_in_order_fresh).
  unfold obj_keys. rewrite fmap_app. by apply ascending_snoc.
Qed.

Lemma ids_in_order_unsubscribe (callbackId : nat) o :
  ids_in_order o →
  ids_in_order {| followers := obj_delete callbackId (followers o); cbId := cbId o |}.
Proof.
  intros Ho. unfold ids_in_order. simpl. rewrite obj_keys_delete.
  by apply ascending_filter.
Qed.

Lemma Forall_alter_same {A} (P : A → Prop) (f : A → A) (i : nat) (l : list A) :
  (∀ x, P x → P (f x)) → Forall P l → Forall P (alter f i l).
Proof.
  intros Hf Hl. apply Forall_lookup. intros j y Hj.
  rewrite Forall_lookup in Hl.
  destruct (decide (j = i)) as [->|Hne].
  - rewrite list_lookup_alter_eq in Hj.
    destruct (l !! i) as [x|] eqn:Hx; [|done]. injection Hj as <-. eauto.
  - rewrite list_lookup_alter_ne in Hj by done. eauto.
Qed.

Section ObserverFacts.
Context {STATES PAYLOAD : Type}.
Implicit Types (w : World STATES PAYLOAD) (observer : nat).

Lemma onValue_observers observer callback w :
  observers (onValue observer callback w).2 =
    alter (λ o, {| followers := obj_set (cbId o) callback (followers o);
                   cbId := S (cbId o) |}) observer (observers w).
Proof. simpl. apply list_alter_ext; [|done]. by intros o ->. Qed.

Lemma onValue_ids_in_order observer callback w :
  Forall ids_in_order (observers w) →
  Forall ids_in_order (observers (onValue observer callback w).2).
Proof.
  intros Hw. rewrite onValue_observers. apply Forall_alter_same; [|done].
  intros o Ho. by apply ids_in_order_onValue.
Qed.

Lemma unsubscribe_ids_in_order (s : Subscription) w :
  Forall ids_in_order (observers w) →
  Forall ids_in_order (observers (unsubscribe s w)).
Proof.
  intros Hw. simpl. apply Forall_alter_same; [|done].
  intros o Ho. by apply ids_in_order_unsubscribe.
Qed.

Lemma run_hook_ids_in_order {R} (p : ObsProg R) w :
  Forall ids_in_order (observers w) →
  Forall ids_in_order (observers (run_hook p w).2).
Proof.
  revert w. induction p as [r|observer callback k IH|s k IH]; intros w Hw; simpl.
  - done.
  - apply IH. by apply (onValue_ids_in_order observer callback w).
  - apply IH. by apply unsubscribe_ids_in_order.
Qed.

Lemma next_observers observer (t : STATES) w :
  observers (next observer t w) = observers w.
Proof. by rewrite next_deliveries. Qed.

Lemma next_cells observer (t : STATES) w : cells (next observer t w) = cells w.
Proof. by rewrite next_deliveries. Qed.

Lemma next_trace observer (t : STATES) w :
  trace (next observer t w) = trace w ++ deliveries observer t w.
Proof. by rewrite next_deliveries. Qed.
End ObserverFacts.

Section ObserverTheorems.
Context {STATES PAYLOAD INITIAL OBSERVABLE : Type}.
Implicit Types (w : World STATES PAYLOAD) (observer : nat).
Implicit Types (od : FSMDescriptionWithObservable STATES PAYLOAD INITIAL OBSERVABLE).

Lemma world_of_bind_ret {A B} (m : M STATES PAYLOAD A) (g : A → B) w :
  world_of (bind m (λ a, ret (g a)) w) = world_of (m w).
Proof. unfold bind. by destruct (m w). Qed.

(** The construction of an observable instance, from the world that the
    hook left. *)
Lemma create_observable_after_hook od initial fuel w :
  let observer := length (observers w) in
  let initialValue := factory (description od) initial in
  ∃ hookResult wh,
    run_hook (observableHook od observer)
      (with_observers (λ os, os ++ [InternalObserver_new]) w) = (hookResult, wh) ∧
    trace wh = trace w ∧ cells wh = cells w ∧
    quiet_elsewhere observer (next observer initialValue wh)
      (world_of (create_observable od initial fuel w)).
Proof.
  intros observer initialValue. unfold create_observable. fold observer initialValue.
  destruct (run_hook _ _) as [hookResult wh] eqn:Hhook.
  exists hookResult, wh. split; [done|].
  apply run_hook_frame in Hhook as (_ & Hcells & Htrace). simpl in Hcells, Htrace.
  split_and!; [done|done|].
  rewrite world_of_bind_ret.
  pose proof (quiet_elsewhere_preorder (STATES:=STATES) (PAYLOAD:=PAYLOAD) observer)
    as Hpre.
  etransitivity; [apply (quiet_elsewhere_with_cells observer
                           (λ cs, cs ++ [{| _value := initialValue; _hooks := None |}]))|].
  apply (FSMInstance_new_allocated (quiet_elsewhere observer)).
  - intros e w0 He. apply quiet_elsewhere_log. intros o c l t ->. done.
  - intros hooks w0. apply quiet_elsewhere_with_cells.
  - intros name payload.
    apply (dispatch_respects (quiet_elsewhere observer) (quiet_elsewhere_log observer)).
    + intros state w0. etransitivity; [|apply quiet_elsewhere_next].
      apply quiet_elsewhere_with_cells.
    + intros hooks w0. apply quiet_elsewhere_with_cells.
Qed.



Lemma filter_delivered_to (s : Subscription) observer (t : STATES)
    (fs : list (nat * Listener)) :
  filter (λ e, delivered_to (of_observer s) (callbackId_ s) e = false)
    ((λ f, Delivered (STATES:=STATES) (PAYLOAD:=PAYLOAD) observer f.1 f.2 t) <$> fs) =
  (λ f, Delivered observer f.1 f.2 t) <$>
    (if decide (observer = of_observer s) then obj_delete (callbackId_ s) fs else fs).
Proof.
  induction fs as [|[k cb] fs IH]; [by case_decide|].
  rewrite fmap_cons. cbn [fst snd].
  destruct (decide (observer = of_observer s)) as [->|Hne].
  - unfold obj_delete in *. destruct (decide (k = callbackId_ s)) as [->|Hk].
    + rewrite filter_cons_False by (simpl; rewrite bool_decide_true; auto).
      rewrite filter_cons_False by (simpl; auto). exact IH.
    + rewrite filter_cons_True
        by (simpl; rewrite bool_decide_false; [done|intros [_ ?]; done]).
      rewrite filter_cons_True by done. rewrite fmap_cons. by rewrite IH.
  - rewrite filter_cons_True
      by (simpl; rewrite bool_decide_false; [done|intros [? _]; done]).
    by rewrite IH.
Qed.


(** What the instance carries: the observer made for it, and what the
    hook returned. *)
Lemma create_observable_result od initial fuel w inst w' :
  create_observable od initial fuel w = Done inst w' →
  observer_ inst = length (observers w) ∧
  asObservable inst =
    (run_hook (observableHook od (length (observers w)))
       (with_observers (λ os, os ++ [InternalObserver_new]) w)).1.
Proof.
  unfold create_observable. destruct (run_hook _ _) as [hookResult wh].
  unfold bind. destruct (FSMInstance_new _ _ _ _ _) as [i wd| |]; [|done..].
  by intros [= <- _].
Qed.

End ObserverTheorems.

(** ** Observable instances *)

Section Observed.
Context {STATES PAYLOAD INITIAL OBSERVABLE : Type}.
Implicit Types (d : FSMDescription STATES PAYLOAD INITIAL).
Implicit Types (od : FSMDescriptionWithObservable STATES PAYLOAD INITIAL OBSERVABLE).
Implicit Types (w : World STATES PAYLOAD) (self : Self STATES PAYLOAD).
Implicit Types (e : Event STATES PAYLOAD) (c : Cell STATES PAYLOAD).
Implicit Types (fuel this observer : nat).

(** The accessors of an observable instance: its state setter calls
    [next] on its observer. *)
Local Abbreviation observed d observer this initialValue :=
  (dispatch d (λ state w, next observer state (set_this_value this state w))
     (this_value this initialValue) (set_this_hooks this) (this_hooks this)).

(** A script that sends nothing: what it returns and what it leaves. *)
Lemma exec_quiet_effects {A} self (p : Prog STATES PAYLOAD A) w :
  (∀ w1 w2, cells w1 = cells w2 → value self w1 = value self w2) →
  sends_nothing p →
  ∃ w' effects,
    exec self p w = Done (result_of p (value self w)) w' ∧
    cells w' = cells w ∧ observers w' = observers w ∧
    trace w' = trace w ++ effects ∧
    Forall (λ e, is_effect e = true) effects.
Proof.
  intros Hvalue Hp. revert w. induction Hp as [r|k _ IH|label k _ IH]; intros w; simpl.
  - exists w, []. by rewrite app_nil_r.
  - apply IH.
  - destruct (IH (log (UserEffect label) w))
      as (w' & effects & Hexec & Hcells & Hobs & Htrace & Heffects).
    exists w', (UserEffect label :: effects). unfold bind, emit. rewrite Hexec.
    rewrite (Hvalue (log (UserEffect label) w) w) by done.
    split_and!; [done|done|done| |by constructor].
    rewrite Htrace. simpl. by rewrite <-app_assoc.
Qed.

Lemma is_effect_user_code (effects : list (Event STATES PAYLOAD)) :
  Forall (λ e, is_effect e = true) effects →
  Forall (λ e, is_user_code e = true) effects.
Proof. intros Heffects. eapply Forall_impl; [exact Heffects|]. by intros []. Qed.

(** The call of an optional lifecycle function that sends nothing. *)
Lemma call_quiet_effects {A} self (function : option A)
    (body : A → Prog STATES PAYLOAD ()) (call : HookCall STATES) w :
  (∀ w1 w2, cells w1 = cells w2 → value self w1 = value self w2) →
  (∀ f, function = Some f → sends_nothing (body f)) →
  ∃ w' calls,
    match function with
    | Some f => bind (emit (Fired call)) (λ _, exec self (body f))
    | None => ret ()
    end w = Done () w' ∧
    cells w' = cells w ∧ observers w' = observers w ∧
    trace w' = trace w ++ calls ∧
    Forall (λ e, is_user_code e = true) calls.
Proof.
  intros Hvalue Hquiet. destruct function as [f|]; simpl.
  - destruct (exec_quiet_effects self (body f) (log (Fired call) w) Hvalue)
      as (w' & effects & Hexec & Hcells & Hobs & Htrace & Heffects); [by apply Hquiet|].
    exists w', (Fired call :: effects). unfold bind, emit. rewrite Hexec.
    split_and!; [by destruct (result_of _ _)|done|done| |].
    + rewrite Htrace. simpl. by rewrite <-app_assoc.
    + constructor; [done|]. by apply is_effect_user_code.
  - exists w, []. by rewrite app_nil_r.
Qed.

Lemma observed_value_cells d observer this (initialValue : STATES) fuel w1 w2 :
  cells w1 = cells w2 →
  value (observed d observer this initialValue fuel) w1 =
  value (observed d observer this initialValue fuel) w2.
Proof. simpl. unfold this_value. by intros ->. Qed.

Lemma deliveries_observers observer (t : STATES) w1 w2 :
  observers w1 = observers w2 → deliveries observer t w1 = deliveries observer t w2.
Proof. unfold deliveries. by intros ->. Qed.

(** One send on an observable instance, when no user code sends. *)
Lemma send_observed_quiet d observer this (initialValue : STATES) fuel
    name payload w c step :
  quiet_description d →
  cells w !! this = Some c →
  (∀ hooks, _hooks c = Some hooks → quiet_hooks hooks) →
  spec_transition d (_value c) name payload = Some step →
  ∃ w' emitted,
    send (observed d observer this initialValue (S fuel)) name payload w = Done () w' ∧
    observers w' = observers w ∧
    trace w' = trace w ++ emitted ∧
    match step with
    | None =>
        cells w' = cells w ∧ Forall (λ e, ∀ o i l t, e ≠ Delivered o i l t) emitted
    | Some (entry, current) =>
        this_value this initialValue w' = current ∧
        ∃ effects calls,
          emitted = effects ++ deliveries observer current w ++ calls ∧
          Forall (λ e, is_effect e = true) effects ∧
          Forall (λ e, is_user_code e = true) calls
    end.
Proof.
  intros Hquiet Hc Hhooks Hstep. unfold spec_transition in Hstep.
  destruct (obj_get name (messages d)) as [message|] eqn:Hname;
    simpl in Hstep; [|done].
  destruct (findStateBehavior d (_value c)) as [resident|] eqn:Hresident;
    simpl in Hstep; [|done].
  destruct (reverseMessageMap d !! _id message) as [messageKey|] eqn:Hkey;
    simpl in Hstep; [|done].
  pose proof (this_value_at this initialValue w c Hc) as Hvalue.
  set (self := observed d observer this initialValue fuel).
  assert (∀ w1 w2, cells w1 = cells w2 → value self w1 = value self w2) as Hself
    by apply observed_value_cells.
  cbn [send dispatch]. unfold send_property. rewrite Hname, sendFactory_S. fold self.
  unfold send_body. unfold bind at 1, gets. rewrite Hvalue, Hresident, Hkey.
  destruct (handling resident !! messageKey ∪ handling resident !! "_")
    as [handler|] eqn:Hhandler.
  2:{ injection Hstep as <-.
      eexists _, [ConsoleWarn (Text (noTransition (print_name (findStateKey d (_value c)))
                                       messageKey));
                  ConsoleWarn (TransitionContext messageKey (_value c))].
      split; [reflexivity|]. split_and!; [done| |done|].
      - cbn [trace log]. by rewrite <-app_assoc.
      - by repeat constructor. }
  pose proof (quiet_handler d _ _ _ _ (_value c) payload Hquiet Hresident Hhandler)
    as Hsends.
  destruct (exec_quiet_effects self _ w Hself Hsends)
    as (w1 & effects & Hexec & Hcells1 & Hobs1 & Htrace1 & Heffects).
  unfold bind at 1. rewrite Hexec.
  assert (value self w = _value c) as -> by exact Hvalue.
  set (newValue := result_of (handler (_value c) payload) (_value c)) in *.
  destruct (findStateBehavior d newValue) as [entry|] eqn:Hentry; simpl in Hstep; [|done].
  injection Hstep as <-.
  unfold bind at 1, modify. unfold bind at 1, gets.
  set (w2 := next observer newValue (set_this_value this newValue w1)).
  assert (cells w2 !! this = Some {| _value := newValue; _hooks := _hooks c |}) as Hc2.
  { unfold w2. rewrite next_cells. apply set_this_value_at. by rewrite Hcells1. }
  assert (observers w2 = observers w) as Hobs2.
  { unfold w2. by rewrite next_observers. }
  assert (trace w2 = trace w ++ effects ++ deliveries observer newValue w) as Htrace2.
  { unfold w2. rewrite next_trace. cbn [trace set_this_value with_cells].
    rewrite Htrace1, <-app_assoc. do 2 f_equal. by apply deliveries_observers. }
  rewrite (this_hooks_at _ _ _ Hc2). cbn [_hooks].
  destruct (bool_decide (addr entry = addr resident)) eqn:Hsame.
  - destruct (call_quiet_effects self (_hooks c ≫= onUpdate)
                (λ f, f (_value c) newValue) (CallOnUpdate (_value c) newValue) w2 Hself)
      as (w3 & calls & Hcall & Hcells3 & Hobs3 & Htrace3 & Hcalls).
    { intros f Hf. destruct (_hooks c) as [hooks|]; [|done].
      destruct (Hhooks hooks eq_refl) as [Hupdate _]. by apply Hupdate. }
    exists w3, (effects ++ deliveries observer newValue w ++ calls).
    split; [exact Hcall|]. split_and!.
    + congruence.
    + by rewrite Htrace3, Htrace2, <-!app_assoc.
    + rewrite (this_value_at this initialValue w3 _ ltac:(by rewrite Hcells3)). done.
    + by exists effects, calls.
  - destruct (call_quiet_effects self (_hooks c ≫= onExit)
                (λ f, f (_value c)) (CallOnExit (_value c)) w2 Hself)
      as (w3 & calls & Hcall & Hcells3 & Hobs3 & Htrace3 & Hcalls).
    { intros f Hf. destruct (_hooks c) as [hooks|]; [|done].
      destruct (Hhooks hooks eq_refl) as [_ Hexit]. by apply Hexit. }
    unfold bind at 1. rewrite Hcall.
    assert (cells w3 !! this = Some {| _value := newValue; _hooks := _hooks c |})
      as Hc3 by (by rewrite Hcells3).
    destruct (findStateBehavior_declared d _ _ Hentry) as [key Hdeclared].
    destruct (Hquiet key entry Hdeclared) as [_ Henter].
    destruct (onEnter entry) as [f|] eqn:Hf.
    + destruct (Henter f newValue eq_refl) as [Hsends_f _].
      destruct (exec_quiet_effects self (f newValue)
                  (log (Fired (CallOnEnter (addr entry) newValue)) w3) Hself Hsends_f)
        as (w4 & entered & Hexec4 & Hcells4 & Hobs4 & Htrace4 & Hentered).
      eexists _, (effects ++ deliveries observer newValue w ++
                  calls ++ Fired (CallOnEnter (addr entry) newValue) :: entered).
      unfold bind, emit, modify. rewrite Hexec4. split; [reflexivity|].
      split_and!.
      * cbn [observers set_this_hooks with_cells]. rewrite Hobs4. simpl. congruence.
      * cbn [trace set_this_hooks with_cells]. rewrite Htrace4. simpl.
        by rewrite Htrace3, Htrace2, <-!app_assoc.
      * unfold this_value. cbn [cells set_this_hooks with_cells].
        rewrite list_lookup_alter_eq, Hcells4. simpl. by rewrite Hc3.
      * eexists effects, _. split_and!; [reflexivity|done|].
        apply Forall_app. split; [done|]. constructor; [done|].
        by apply is_effect_user_code.
    + eexists _, (effects ++ deliveries observer newValue w ++ calls).
      unfold modify. split; [reflexivity|]. split_and!.
      * cbn [observers set_this_hooks with_cells]. congruence.
      * cbn [trace set_this_hooks with_cells]. by rewrite Htrace3, Htrace2, <-!app_assoc.
      * unfold this_value. cbn [cells set_this_hooks with_cells].
        rewrite list_lookup_alter_eq. by rewrite Hc3.
      * by exists effects, calls.
Qed.
End Observed.

Section ObservedInstance.
Context {STATES PAYLOAD INITIAL OBSERVABLE : Type}.
Implicit Types (od : FSMDescriptionWithObservable STATES PAYLOAD INITIAL OBSERVABLE).
Implicit Types (w : World STATES PAYLOAD).

End ObservedInstance.

Section LifecycleFacts.
Context {STATES PAYLOAD INITIAL : Type}.
Implicit Types (d : FSMDescription STATES PAYLOAD INITIAL).
Implicit Types (w : World STATES PAYLOAD) (c : Cell STATES PAYLOAD).
Implicit Types (fuel : nat).



End LifecycleFacts.

(** ** The further properties on the video player *)

Section Checks.
Import VideoPlayer.

Lemma wildcardDescription_quiet : quiet_description wildcardDescription.
Proof.
  intros key entry Hentry. cbn in Hentry.
  apply lookup_insert_Some in Hentry as [[_ <-]|[_ Hentry]];
    [|apply lookup_insert_Some in Hentry as [[_ <-]|[_ Hentry]];
      [|apply lookup_singleton_Some in Hentry as [_ <-]]].
  - split.
    + intros name handler state payload Hhandler. cbn in Hhandler.
      apply lookup_insert_Some in Hhandler as [[_ <-]|[_ Hhandler]];
        [|apply lookup_singleton_Some in Hhandler as [_ <-]]; repeat constructor.
    + intros f state [= <-]. split; [constructor|].
      intros current hooks [= <-]. split; [|done].
      intros f previous current' [= <-]. repeat constructor.
  - split; [|done]. intros name handler state payload Hhandler. cbn in Hhandler.
    by rewrite lookup_empty in Hhandler.
  - split; [|done]. intros name handler state payload Hhandler. cbn in Hhandler.
    by rewrite lookup_empty in Hhandler.
Qed.

Lemma observablePlayer_quiet : quiet_description (description observablePlayer).
Proof.
  intros key entry Hentry. cbn in Hentry.
  apply lookup_insert_Some in Hentry as [[_ <-]|[_ Hentry]];
    [|apply lookup_insert_Some in Hentry as [[_ <-]|[_ Hentry]];
      [|apply lookup_singleton_Some in Hentry as [_ <-]]].
  - split; [|done]. intros name handler state payload Hhandler. cbn in Hhandler.
    apply lookup_singleton_Some in Hhandler as [_ <-]. constructor.
  - split; [|done]. intros name handler state payload Hhandler. cbn in Hhandler.
    by rewrite lookup_empty in Hhandler.
  - split; [|done]. intros name handler state payload Hhandler. cbn in Hhandler.
    apply lookup_singleton_Some in Hhandler as [_ <-]. constructor.
Qed.

Lemma spied_hooks_quiet (hooks : Hooks VideoPlayerState Payload) :
  Some spied_hooks = Some hooks → quiet_hooks hooks.
Proof.
  intros [= <-]. split.
  - intros f previous current [= <-]. repeat constructor.
  - intros f state [= <-]. repeat constructor.
Qed.

Lemma wildcard_hooks_quiet (hooks : Hooks VideoPlayerState Payload) :
  Some wildcard_hooks = Some hooks → quiet_hooks hooks.
Proof.
  intros [= <-]. split; [|done].
  intros f previous current [= <-]. repeat constructor.
Qed.

(** The player of the end-to-end example, created in the empty world. *)
Lemma video_player_created :
  ∃ instance,
    create videoPlayerDescription () 0 empty_world = Done instance (one_cell Idle) ∧
    this_ instance = 0.
Proof.
  edestruct (returned_in (create videoPlayerDescription () 0 empty_world))
    as [instance Hrun]; [by vm_compute|by vm_compute|].
  exists instance. split; [exact Hrun|].
  by apply create_instance in Hrun as [-> _].
Qed.

Lemma lifecycle_player_created :
  ∃ instance,
    create lifecycleDescription () 0 empty_world = Done instance (one_cell Idle) ∧
    this_ instance = 0.
Proof.
  edestruct (returned_in (create lifecycleDescription () 0 empty_world))
    as [instance Hrun]; [by vm_compute|by vm_compute|].
  exists instance. split; [exact Hrun|].
  by apply create_instance in Hrun as [-> _].
Qed.

Lemma wildcard_player_created :
  ∃ instance,
    create wildcardDescription () 0 empty_world = Done instance wildcard_world ∧
    this_ instance = 0.
Proof.
  edestruct (returned_in (create wildcardDescription () 0 empty_world))
    as [instance Hrun]; [by vm_compute|by vm_compute|].
  exists instance. split; [exact Hrun|].
  by apply create_instance in Hrun as [-> _].
Qed.

Lemma no_matching_message_unreachable_witness :
  ∃ instance,
    create videoPlayerDescription () 0 empty_world = Done instance (one_cell Idle) ∧
    logged_only (λ e, is_no_matching_message e = false) (one_cell Idle)
      (world_of (send (instance_self instance 1) "seek" (Seek 3) (one_cell Idle))).
Proof.
  destruct video_player_created as (instance & Hcreate & _).
  exists instance. split; [exact Hcreate|].
  exact (proj2 (no_matching_message_unreachable videoPlayerDescription () 0 empty_world
                  instance (one_cell Idle) Hcreate) 1 "seek" (Seek 3) (one_cell Idle)).
Defined.

(** The first of two players is sent [play]: the cell of the second is
    as it was. *)
Lemma send_changes_own_cell_only_witness :
  ∃ instance,
    create videoPlayerDescription () 0 empty_world = Done instance (one_cell Idle) ∧
    cells (world_of (send (instance_self instance 1) "play" Empty (observed_world 2 [])))
      !! 1 = Some {| _value := Idle; _hooks := None |}.
Proof.
  destruct video_player_created as (instance & Hcreate & Hthis).
  exists instance. split; [exact Hcreate|].
  destruct (send_changes_own_cell_only videoPlayerDescription () 0 empty_world
              instance (one_cell Idle) 1 "play" Empty (observed_world 2 []) Hcreate)
    as (_ & Hothers & _).
  rewrite Hothers; [reflexivity|]. rewrite Hthis. lia.
Defined.








End Checks.

(** ** The two revisions of the engine *)

Section AgreementFacts.
Context {STATES PAYLOAD INITIAL : Type}.
Implicit Types (d : FSMDescription STATES PAYLOAD INITIAL).
Implicit Types (w : World STATES PAYLOAD) (self : Self STATES PAYLOAD).
Implicit Types (e : Event STATES PAYLOAD) (fuel this : nat).

Lemma same_calls_refl (hooks : option (Hooks STATES PAYLOAD)) : same_calls hooks hooks.
Proof. by split. Qed.

Lemma similar_refl w : similar w w.
Proof.
  split_and!; [|done..]. apply Forall2_same_length_lookup. split; [done|].
  intros i c1 c2 Hc1 Hc2. assert (c1 = c2) as -> by congruence.
  split; [done|apply same_calls_refl].
Qed.

Lemma similar_log e w1 w2 : similar w1 w2 → similar (log e w1) (log e w2).
Proof. intros (Hcells & Hobs & Htrace). split_and!; [done|done|]. simpl. by rewrite Htrace. Qed.

Lemma similar_length w1 w2 : similar w1 w2 → length (cells w1) = length (cells w2).
Proof. intros [Hcells _]. by eapply Forall2_length. Qed.

Lemma similar_this_value this (initialValue : STATES) w1 w2 :
  similar w1 w2 → this_value this initialValue w1 = this_value this initialValue w2.
Proof.
  intros [Hcells _]. unfold this_value.
  destruct (cells w1 !! this) as [c1|] eqn:Hc1.
  - destruct (Forall2_lookup_l _ _ _ _ _ Hcells Hc1) as (c2 & -> & [Hvalue _]). done.
  - apply lookup_ge_None in Hc1. rewrite (Forall2_length _ _ _ Hcells) in Hc1.
    apply lookup_ge_None in Hc1. by rewrite Hc1.
Qed.

Lemma similar_this_hooks this w1 w2 :
  similar w1 w2 → same_calls (this_hooks this w1) (this_hooks this w2).
Proof.
  intros [Hcells _]. unfold this_hooks.
  destruct (cells w1 !! this) as [c1|] eqn:Hc1.
  - destruct (Forall2_lookup_l _ _ _ _ _ Hcells Hc1) as (c2 & -> & [_ Hhooks]). done.
  - apply lookup_ge_None in Hc1. rewrite (Forall2_length _ _ _ Hcells) in Hc1.
    apply lookup_ge_None in Hc1. rewrite Hc1. apply same_calls_refl.
Qed.

Lemma similar_alter this (f1 f2 : Cell STATES PAYLOAD → Cell STATES PAYLOAD) w1 w2 :
  (∀ c1 c2, similar_cell c1 c2 → similar_cell (f1 c1) (f2 c2)) →
  similar w1 w2 →
  similar (with_cells (alter f1 this) w1) (with_cells (alter f2 this) w2).
Proof.
  intros Hf (Hcells & Hobs & Htrace). split_and!; [|done..]. simpl.
  apply Forall2_same_length_lookup. split.
  - rewrite !length_alter. by eapply Forall2_length.
  - intros i c1 c2. destruct (decide (i = this)) as [->|Hne].
    + rewrite !list_lookup_alter_eq.
      destruct (cells w1 !! this) as [c1'|] eqn:Hc1; [|done].
      destruct (Forall2_lookup_l _ _ _ _ _ Hcells Hc1) as (c2' & -> & Hsim).
      simpl. intros [= <-] [= <-]. by apply Hf.
    + rewrite !list_lookup_alter_ne by done. intros Hc1 Hc2.
      destruct (Forall2_lookup_l _ _ _ _ _ Hcells Hc1) as (c2' & Hc2' & Hsim).
      congruence.
Qed.

Lemma similar_set_this_value this (state : STATES) w1 w2 :
  similar w1 w2 → similar (set_this_value this state w1) (set_this_value this state w2).
Proof. apply similar_alter. by intros c1 c2 [_ Hhooks]. Qed.

Lemma similar_set_this_hooks this hooks1 hooks2 w1 w2 :
  same_calls hooks1 hooks2 →
  similar w1 w2 → similar (set_this_hooks this hooks1 w1) (set_this_hooks this hooks2 w2).
Proof. intros Hhooks. apply similar_alter. by intros c1 c2 [Hvalue _]. Qed.

Lemma similar_allocate (initialValue : STATES) w1 w2 :
  similar w1 w2 →
  similar (with_cells (λ cs, cs ++ [{| _value := initialValue; _hooks := None |}]) w1)
          (with_cells (λ cs, cs ++ [{| _value := initialValue; _hooks := None |}]) w2).
Proof.
  intros (Hcells & Hobs & Htrace). split_and!; [|done..]. simpl.
  apply Forall2_app; [done|]. repeat constructor.
Qed.

(** *** Sequencing *)

Lemma agree_ret {A B} (R : A → B → Prop) a b :
  R a b → agree (STATES:=STATES) (PAYLOAD:=PAYLOAD) R (ret a) (ret b).
Proof. by intros HR w1 w2 Hw. Qed.

Lemma agree_throw {A B} (R : A → B → Prop) x :
  agree (STATES:=STATES) (PAYLOAD:=PAYLOAD) R (throw x) (throw x).
Proof. by intros w1 w2 Hw. Qed.

Lemma agree_bind {A1 A2 B1 B2} (R : A1 → A2 → Prop) (R' : B1 → B2 → Prop)
    (m1 : M STATES PAYLOAD A1) (m2 : M STATES PAYLOAD A2) f1 f2 :
  agree R m1 m2 →
  (∀ a1 a2, R a1 a2 → agree R' (f1 a1) (f2 a2)) →
  agree R' (bind m1 f1) (bind m2 f2).
Proof.
  intros Hm Hf w1 w2 Hw. specialize (Hm w1 w2 Hw). unfold bind.
  destruct (m1 w1) as [a1 w1'|x1 w1'|w1'], (m2 w2) as [a2 w2'|x2 w2'|w2'];
    simpl in Hm; try done.
  destruct Hm as [Ha Hw']. by apply Hf.
Qed.

Lemma agree_emit e : agree eq (emit e) (emit e).
Proof. intros w1 w2 Hw. split; [done|]. by apply similar_log. Qed.

Lemma agree_gets {A B} (R : A → B → Prop)
    (f1 : World STATES PAYLOAD → A) (f2 : World STATES PAYLOAD → B) :
  (∀ w1 w2, similar w1 w2 → R (f1 w1) (f2 w2)) → agree R (gets f1) (gets f2).
Proof. intros Hf w1 w2 Hw. split; [by apply Hf|done]. Qed.

Lemma agree_modify (f1 f2 : World STATES PAYLOAD → World STATES PAYLOAD) :
  (∀ w1 w2, similar w1 w2 → similar (f1 w1) (f2 w2)) → agree eq (modify f1) (modify f2).
Proof. intros Hf w1 w2 Hw. split; [done|]. by apply Hf. Qed.

Lemma agree_exec {A} self1 self2 (p : Prog STATES PAYLOAD A) :
  agree_self self1 self2 → agree eq (exec self1 p) (exec self2 p).
Proof.
  intros [Hvalue Hsend]. induction p as [r|k IH|name payload k IH|label k IH]; simpl.
  - by apply agree_ret.
  - intros w1 w2 Hw. rewrite (Hvalue w1 w2 Hw). by apply IH.
  - apply (agree_bind eq); [apply Hsend|]. by intros _ _ _.
  - apply (agree_bind eq); [apply agree_emit|]. by intros _ _ _.
Qed.

Lemma agree_exec_dispatcher {A} self1 self2 (p : Prog STATES PAYLOAD A) :
  agree_self self1 self2 → reads_no_value p →
  agree eq (exec_dispatcher self1 p) (exec self2 p).
Proof.
  intros [Hvalue Hsend] Hp. induction Hp as [r|name payload k _ IH|label k _ IH]; simpl.
  - by apply agree_ret.
  - apply (agree_bind eq); [apply Hsend|]. by intros _ _ _.
  - apply (agree_bind eq); [apply agree_emit|]. by intros _ _ _.
Qed.

(** The call of an optional hook. *)
Lemma agree_call {A} self1 self2 (function : option A)
    (body : A → Prog STATES PAYLOAD ()) (call : HookCall STATES) :
  agree_self self1 self2 →
  agree eq
    match function with
    | Some f => bind (emit (Fired call)) (λ _, exec self1 (body f))
    | None => ret ()
    end
    match function with
    | Some f => bind (emit (Fired call)) (λ _, exec self2 (body f))
    | None => ret ()
    end.
Proof.
  intros Hself. destruct function as [f|]; [|by apply agree_ret].
  apply (agree_bind eq); [apply agree_emit|]. intros _ _ _. by apply agree_exec.
Qed.

Section Revisions.
Variable noTransition_common : string → string → string.
Hypothesis same_text :
  ∀ state message, noTransition_common state message = noTransition state message.
Variable d : FSMDescription STATES PAYLOAD INITIAL.
Hypothesis no_value : transitions_read_no_value d.
Variable this : nat.
Variable initialValue : STATES.

Local Abbreviation earlier :=
  (dispatch_legacy noTransition_common d (set_this_value this)
     (this_value this initialValue) (set_this_hooks this) (this_hooks this)).
Local Abbreviation later :=
  (dispatch d (set_this_value this) (this_value this initialValue)
     (set_this_hooks this) (this_hooks this)).

Lemma send_body_agree self1 self2 message payload :
  agree_self self1 self2 →
  agree eq
    (send_body_legacy noTransition_common d (set_this_value this)
       (this_value this initialValue) (set_this_hooks this) (this_hooks this)
       self1 message payload)
    (send_body d (set_this_value this) (this_value this initialValue)
       (set_this_hooks this) (this_hooks this) self2 message payload).
Proof.
  intros Hself. unfold send_body_legacy, send_body.
  apply (agree_bind eq); [apply agree_gets, similar_this_value|].
  intros state ? <-.
  destruct (findStateBehavior d state) as [stateBehavior|] eqn:Hresident.
  2:{ apply (agree_bind eq); [apply agree_emit|]. intros _ _ _. apply agree_throw. }
  destruct (reverseMessageMap d !! _id message) as [messageKey|].
  2:{ apply (agree_bind eq); [apply agree_emit|]. intros _ _ _. apply agree_throw. }
  destruct (handling stateBehavior !! messageKey ∪ handling stateBehavior !! "_")
    as [messageTransition|] eqn:Hhandler.
  2:{ rewrite same_text. apply (agree_bind eq); [apply agree_emit|]. intros _ _ _.
      apply (agree_bind eq); [apply agree_emit|]. intros _ _ _. by apply agree_ret. }
  apply (agree_bind eq).
  { apply agree_exec_dispatcher; [done|].
    destruct (findStateBehavior_declared d _ _ Hresident) as [key Hentry].
    apply union_Some in Hhandler as [Hnamed|[_ Hwildcard]]; by eapply no_value. }
  intros newState ? <-.
  destruct (findStateBehavior d newState) as [newStateBehavior|].
  2:{ apply (agree_bind eq); [apply agree_emit|]. intros _ _ _. apply agree_throw. }
  apply (agree_bind eq); [apply agree_modify, similar_set_this_value|]. intros _ _ _.
  apply (agree_bind same_calls); [apply agree_gets, similar_this_hooks|].
  intros hooks1 hooks2 [Hupdate Hexit].
  destruct (bool_decide (addr newStateBehavior = addr stateBehavior)).
  - rewrite Hupdate. by apply (agree_call self1 self2 _ (λ f, f state newState)).
  - apply (agree_bind eq).
    { rewrite Hexit. by apply (agree_call self1 self2 _ (λ f, f state)). }
    intros _ _ _. destruct (onEnter newStateBehavior) as [f|].
    + apply (agree_bind eq); [apply agree_emit|]. intros _ _ _.
      apply (agree_bind eq); [by apply agree_exec|]. intros newHook ? <-.
      apply agree_modify. intros w1 w2. apply similar_set_this_hooks.
      by destruct newHook.
    + apply agree_modify. intros w1 w2. apply similar_set_this_hooks, same_calls_refl.
Qed.

Lemma send_property_agree (f1 f2 : FSMMessage → PAYLOAD → M STATES PAYLOAD unit)
    name payload :
  (∀ message payload, agree eq (f1 message payload) (f2 message payload)) →
  agree eq (send_property d f1 name payload) (send_property d f2 name payload).
Proof. intros Hf. unfold send_property. case_match; [apply Hf|apply agree_throw]. Qed.

Lemma sendFactory_agree fuel message payload :
  agree eq
    (sendFactory_legacy noTransition_common d (set_this_value this)
       (this_value this initialValue) (set_this_hooks this) (this_hooks this)
       fuel message payload)
    (sendFactory d (set_this_value this) (this_value this initialValue)
       (set_this_hooks this) (this_hooks this) fuel message payload).
Proof.
  revert message payload. induction fuel as [|fuel IH]; intros message payload.
  - by intros w1 w2 Hw.
  - simpl. apply send_body_agree. split.
    + intros w1 w2. apply similar_this_value.
    + intros name payload'. simpl. by apply send_property_agree.
Qed.

Lemma dispatch_agree fuel : agree_self (earlier fuel) (later fuel).
Proof.
  split.
  - intros w1 w2. apply similar_this_value.
  - intros name payload. simpl. apply send_property_agree. intros message payload'.
    apply sendFactory_agree.
Qed.
End Revisions.
End AgreementFacts.

Section RevisionsAgree.
Context {STATES PAYLOAD INITIAL : Type}.
Implicit Types (d : FSMDescription STATES PAYLOAD INITIAL).
Implicit Types (w : World STATES PAYLOAD) (fuel : nat).
Variable noTransition_common : string → string → string.
Hypothesis same_text :
  ∀ state message, noTransition_common state message = noTransition state message.
Variable d : FSMDescription STATES PAYLOAD INITIAL.
Hypothesis no_value : transitions_read_no_value d.

Lemma FSMInstance_new_agree (initialValue : STATES) fuel :
  agree agree_instance
    (FSMInstance_new initialValue (dispatch_legacy noTransition_common d)
       (findStateBehavior d) fuel)
    (FSMInstance_new initialValue (dispatch d) (findStateBehavior d) fuel).
Proof.
  intros w1 w2 Hw. unfold FSMInstance_new.
  rewrite <-(similar_length w1 w2 Hw). set (this := length (cells w1)).
  pose proof (similar_allocate initialValue w1 w2 Hw) as Hw0.
  rewrite <-(similar_this_value this initialValue _ _ Hw0).
  assert (agree_instance
            {| this_ := this;
               instance_self :=
                 dispatch_legacy noTransition_common d (set_this_value this)
                   (this_value this initialValue) (set_this_hooks this) (this_hooks this) |}
            {| this_ := this;
               instance_self :=
                 dispatch d (set_this_value this) (this_value this initialValue)
                   (set_this_hooks this) (this_hooks this) |}) as Hinstance.
  { split; [done|]. intros fuel'. by apply dispatch_agree. }
  destruct (findStateBehavior d _) as [initialBehavior|]; [|by split].
  destruct (onEnter initialBehavior) as [f|]; [|by split].
  refine (agree_bind eq _ _ _ _ _ _ _ _ _ Hw0); [apply agree_emit|]. intros _ _ _.
  apply (agree_bind eq); [by apply agree_exec, dispatch_agree|]. intros hooks ? <-.
  apply (agree_bind eq).
  { apply agree_modify. intros w1' w2'. apply similar_set_this_hooks, same_calls_refl. }
  intros _ _ _. by apply agree_ret.
Qed.

Lemma send_each_agree (self1 self2 : Self STATES PAYLOAD) sent :
  agree_self self1 self2 → agree eq (send_each self1 sent) (send_each self2 sent).
Proof.
  intros Hself. induction sent as [|[name payload] sent IH]; simpl.
  - by apply agree_ret.
  - apply (agree_bind eq); [apply Hself|]. by intros _ _ _.
Qed.

Lemma create_send_agree initial sent fuel :
  agree agree_instance
    (create_send_legacy noTransition_common d initial sent fuel)
    (create_send d initial sent fuel).
Proof.
  unfold create_send_legacy, create_send, create_legacy, create.
  apply (agree_bind agree_instance); [apply FSMInstance_new_agree|].
  intros i1 i2 Hinstance.
  apply (agree_bind eq); [apply send_each_agree, Hinstance|]. intros _ _ _.
  by apply agree_ret.
Qed.
End RevisionsAgree.

Section RevisionsTheorem.
Context {STATES PAYLOAD INITIAL : Type}.

End RevisionsTheorem.

(** ** The construction of an instance *)

Section ConstructionFacts.
Context {STATES PAYLOAD INITIAL : Type}.
Implicit Types (d : FSMDescription STATES PAYLOAD INITIAL).
Implicit Types (w : World STATES PAYLOAD) (fuel : nat).

(** X17.  The construction of an instance whose initial value resolves
    to an entry, when no user code sends a message: [create] returns,
    the value is the one the factory made, the [onEnter] of that entry,
    if there is one, was called once on that value and nothing else was
    called, and the hooks are what it returned: no hooks if it returned
    nothing or if the entry has no [onEnter]. *)
Theorem construction_enters_initial_state d (initial : INITIAL) fuel w entry :
  quiet_description d →
  findStateBehavior d (factory d initial) = Some entry →
  ∃ instance w',
    create d initial fuel w = Done instance w' ∧
    this_ instance = length (cells w) ∧
    value (instance_self instance fuel) w' = factory d initial ∧
    this_hooks (this_ instance) w' =
      onEnter entry ≫= (λ f, result_of (f (factory d initial)) (factory d initial)) ∧
    fired_calls (trace w') =
      fired_calls (trace w) ++
      call_if (onEnter entry) (CallOnEnter (addr entry) (factory d initial)).
Proof.
  intros Hquiet Hentry.
  destruct (create_quiet d initial fuel w entry Hquiet Hentry)
    as (instance & w' & Hcreate & Hself & Hcell & Hfired).
  exists instance, w'. pose proof Hcreate as [Hthis _]%create_instance.
  split_and!; [done|done| | |done].
  - rewrite Hself. cbn [value dispatch]. by rewrite (this_value_at _ _ _ _ Hcell).
  - rewrite Hthis. by rewrite (this_hooks_at _ _ _ Hcell).
Qed.
End ConstructionFacts.

Section MoreChecks.
Import VideoPlayer.

Lemma lifecycleDescription_reads_no_value :
  transitions_read_no_value lifecycleDescription.
Proof.
  intros key entry name handler state payload Hentry Hhandler. cbn in Hentry.
  apply lookup_insert_Some in Hentry as [[_ <-]|[_ Hentry]];
    [|apply lookup_insert_Some in Hentry as [[_ <-]|[_ Hentry]];
      [|apply lookup_singleton_Some in Hentry as [_ <-]]]; cbn in Hhandler.
  - apply lookup_singleton_Some in Hhandler as [_ <-]. constructor.
  - by rewrite lookup_empty in Hhandler.
  - apply lookup_insert_Some in Hhandler as [[_ <-]|[_ Hhandler]];
      [|apply lookup_singleton_Some in Hhandler as [_ <-]]; constructor.
Qed.



Lemma construction_enters_initial_state_witness :
  ∃ instance w',
    create wildcardDescription () 0 empty_world = Done instance w' ∧
    this_hooks (this_ instance) w' = Some wildcard_hooks ∧
    fired_calls (trace w') = [CallOnEnter 0 Idle].
Proof.
  destruct (construction_enters_initial_state wildcardDescription () 0 empty_world
              wildcard_idle wildcardDescription_quiet)
    as (instance & w' & Hcreate & _ & _ & Hhooks & Hfired).
  - reflexivity.
  - by exists instance, w'.
Defined.
End MoreChecks.
